(** * Push-notification relay: broadcast pipeline, token registry, error intake

    A shallow embedding of the route handlers of the service:

    - [Send.POST]            the broadcast pipeline (notifications/send)
    - [RegisterToken.POST]   upsert of a device push token
    - [UnregisterToken.POST] soft deactivation of a push token
    - [ErrorLogs.POST], [ErrorLogs.GET]  error intake and its read path
    - [Stats.GET]            the statistics route
    - [Home], [ErrorLogsAdmin]  the parts of the two admin pages that decide
      what is sent to the routes

    Modelling conventions.

    - A handler is a state transformer over a [World]: the three database
      tables, the identifier supply of the database and the chronological
      [trace] of every call made to an external collaborator (the Prisma
      client and the push gateway).
    - A JSON request body is modelled at its declared field types; a field
      that the body does not carry is [None].  A request whose body cannot
      be read at all is [None] and is answered by the handler's outer
      [catch] (HTTP 500).
    - The Prisma client is an in-memory database.  What its answers owe to
      the database engine behind it, which the repository leaves open (it
      ships a MySQL and a SQLite migration), is a parameter stored with the
      tables, the record [Engine]: the collation that compares text, the
      capacity of the text columns, the engine's own order of rows, and
      what it does with a [take] outside the 32-bit range.  A write that
      the engine refuses throws, and ends in the handler's [catch]
      ([Promise.allSettled] for the log writes of a broadcast).
    - The push gateway (expo-server-sdk) is a parameter: a record [Expo]
      with the address-format check, the batch size limit and the outcome of
      each send call, which may depend on when the call is made.
    - One handler invocation reads the clock once ([now]). *)

From Stdlib Require Import ZArith Lia Ascii.
From stdpp Require Import base tactics option list strings numbers pretty sorting.

Open Scope string_scope.
Open Scope list_scope.
Open Scope nat_scope.

(** ** Values *)

Definition Time := Z.
Definition Id := string.

#[warnings="-register-all"]
Inductive Json :=
| JNull
| JBool (b : bool)
| JNum (n : Z)
| JStr (s : string)
| JArr (items : list Json)
| JObj (fields : list (string * Json)).

(** JavaScript truthiness of a string-typed field that may be absent:
    [undefined] and the empty string are falsy. *)
Definition truthy (v : option string) : bool :=
  match v with
  | Some s => negb (String.eqb s "")
  | None => false
  end.

Definition json_truthy (v : option Json) : bool :=
  match v with
  | None | Some JNull => false
  | Some (JBool b) => b
  | Some (JNum n) => negb (Z.eqb n 0)
  | Some (JStr s) => negb (String.eqb s "")
  | Some (JArr _) | Some (JObj _) => true
  end.

(** [v || null] *)
Definition or_null (v : option string) : option string :=
  if truthy v then v else None.

Definition json_or_null (v : option Json) : option Json :=
  if json_truthy v then v else None.

(** ** Database models (migration.sql) *)

Module PushToken.
Record t := mk {
  id : Id;
  token : string;
  platform : string;
  deviceInfo : option Json;
  isActive : bool;
  createdAt : Time;
  updatedAt : Time;
  lastUsedAt : Time;
}.
End PushToken.

Module NotificationLog.
Record t := mk {
  id : Id;
  tokenId : option Id;
  title : string;
  body : string;
  data : option Json;
  status : string;
  ticketId : option string;
  receiptId : option string;
  errorCode : option string;
  errorMessage : option string;
  sentAt : Time;
  deliveredAt : option Time;
  readAt : option Time;
}.
End NotificationLog.

Module ErrorLog.
Record t := mk {
  id : Id;
  tokenId : option string;
  platform : option string;
  errorType : string;
  message : string;
  stackTrace : option string;
  context : option Json;
  appVersion : option string;
  createdAt : Time;
}.
End ErrorLog.

(** ** The database engine *)

(** The tables are declared twice in the repository: for MySQL, with
    [VARCHAR(191)] and [TEXT] columns under [COLLATE utf8mb4_unicode_ci],
    and for SQLite, with unbounded [TEXT] columns compared byte by byte.

    - [collation s] is the comparison key of the text [s]: the engine takes
      two texts for equal, in a [where], in the unique index and in a
      [groupBy], when their keys are equal.
    - [varchar s] and [text s] say whether [s] fits a [VARCHAR(191)] and a
      [TEXT] column; a write of a value that does not fit is refused.
    - [errorLogOrder], [errorTypeOrder] and [platformOrder] give the place
      of a row in the order in which the engine visits the rows of a query:
      it decides between rows that an [orderBy] leaves tied, and which
      spelling stands for a group of a [groupBy].
    - [wideTake n] is what becomes of a [take] outside the 32-bit range:
      the number of rows asked for instead, or [None] when the call is
      refused. *)
Record Engine := mkEngine {
  collation : string → string;
  varchar : string → bool;
  text : string → bool;
  errorLogOrder : ErrorLog.t → nat;
  errorTypeOrder : ErrorLog.t → nat;
  platformOrder : PushToken.t → nat;
  wideTake : Z → option Z;
}.

(** Rows in the order in which the engine visits them. *)
Definition byRank {A} (rank : A → nat) (a b : A) : Prop := rank a ≤ rank b.

#[global] Instance byRank_dec {A} (rank : A → nat) : RelDecision (byRank rank) :=
  λ a b, le_dec (rank a) (rank b).

(** The first spelling of each class of [values] under [key], in the order
    of [values]; [seen] holds the keys of the classes met before. *)
Fixpoint spellings (key : string → string) (seen : list string)
    (values : list string) : list string :=
  match values with
  | [] => []
  | v :: values =>
      if decide (key v ∈ seen) then spellings key seen values
      else v :: spellings key (key v :: seen) values
  end.

(** ** The push gateway client *)

Inductive Priority := PriorityDefault | PriorityNormal | PriorityHigh.

Module ExpoPushMessage.
Record t := mk {
  to : string;
  sound : string;
  title : string;
  body : string;
  data : Json;
  badge : option Z;
  priority : Priority;
}.
End ExpoPushMessage.

Inductive ExpoPushTicket :=
| TicketOk (id : string)
| TicketError (message : string).

Definition GatewayError := string.

(** The gateway as the handlers see it.  [sendPushNotificationsAsync n chunk]
    is the outcome of a send call issued when [n] external calls have been
    made before it: the tickets, or the error the call throws. *)
Record Expo := mkExpo {
  isExpoPushToken : string → bool;
  pushNotificationChunkSizeLimit : nat;
  sendPushNotificationsAsync :
    nat → list ExpoPushMessage.t → list ExpoPushTicket + GatewayError;
}.

(** Modelled from the spec: the gateway client's [chunk] operation
    (expo-server-sdk's [chunkPushNotifications], which is not part of this
    repository): a pure, order-preserving partition of the messages into
    batches of the fixed batch size.  The loop fills the current batch and
    closes it when it reaches the limit; a last partial batch is kept. *)
Fixpoint chunkLoop {A} (limit : nat) (chunk : list A) (messages : list A)
  : list (list A) :=
  match messages with
  | [] => if decide (length chunk = 0) then [] else [chunk]
  | message :: rest =>
      let chunk' := chunk ++ [message] in
      if decide (limit ≤ length chunk')
      then chunk' :: chunkLoop limit [] rest
      else chunkLoop limit chunk' rest
  end.

Definition chunkPushNotifications (expo : Expo)
    (messages : list ExpoPushMessage.t) : list (list ExpoPushMessage.t) :=
  chunkLoop (pushNotificationChunkSizeLimit expo) [] messages.

(** ** The world and the calls made to it *)

Inductive Call :=
| PushToken_findMany_active
| PushToken_findUnique (token : string)
| PushToken_update (token : string)
| PushToken_create (token : string)
| PushToken_updateMany_isActive_false (token : string)
| PushToken_updateMany_lastUsedAt (ids : list Id) (at_ : Time)
| NotificationLog_create (tokenId : Id)
| ErrorLog_create
| ErrorLog_findMany
| ErrorLog_count
| ErrorLog_groupBy
| Expo_sendPushNotificationsAsync (chunk : list ExpoPushMessage.t).

Record World := mkWorld {
  engine : Engine;
  pushTokens : list PushToken.t;
  notificationLogs : list NotificationLog.t;
  errorLogs : list ErrorLog.t;
  nextId : nat;
  trace : list Call;
}.

Definition set_pushTokens (l : list PushToken.t) (w : World) : World :=
  mkWorld (engine w) l (notificationLogs w) (errorLogs w) (nextId w) (trace w).
Definition set_notificationLogs (l : list NotificationLog.t) (w : World) : World :=
  mkWorld (engine w) (pushTokens w) l (errorLogs w) (nextId w) (trace w).
Definition set_errorLogs (l : list ErrorLog.t) (w : World) : World :=
  mkWorld (engine w) (pushTokens w) (notificationLogs w) l (nextId w) (trace w).
Definition set_nextId (n : nat) (w : World) : World :=
  mkWorld (engine w) (pushTokens w) (notificationLogs w) (errorLogs w) n
          (trace w).
Definition log_calls (cs : list Call) (w : World) : World :=
  mkWorld (engine w) (pushTokens w) (notificationLogs w) (errorLogs w)
          (nextId w) (trace w ++ cs).

(** Handlers run in a state monad over the world. *)
Definition M (A : Type) : Type := World → A * World.

Definition ret {A} (a : A) : M A := λ w, (a, w).
Definition bind {A B} (m : M A) (k : A → M B) : M B :=
  λ w, let '(a, w') := m w in k a w'.

Notation "'let*' x ':=' m 'in' k" := (bind m (λ x, k))
  (at level 10, x pattern, m at level 100, k at level 200).

Definition call (c : Call) : M unit := λ w, (tt, log_calls [c] w).

(** The database hands out identifiers (cuid/uuid defaults of the schema);
    the supply is a counter. *)
Definition freshId : M Id :=
  λ w, ("c" +:+ pretty (nextId w), set_nextId (S (nextId w)) w).

(** An HTTP response: a JSON body with status 200, or an error object with
    its status. *)
Inductive Response (B : Type) :=
| Ok (body : B)
| Error (status : nat) (error : string).
Arguments Ok {B} body.
Arguments Error {B} status error.

(** ** Prisma client: pushToken *)

Module prisma_pushToken.

(** [findMany({ where: { isActive: true } })] *)
Definition findMany_active : M (list PushToken.t) :=
  let* _ := call PushToken_findMany_active in
  λ w, (filter (λ r, PushToken.isActive r) (pushTokens w), w).

(** [where: { token }]: the rows whose token the engine takes for equal
    to [token]. *)
Definition carries (e : Engine) (token : string) (r : PushToken.t) : Prop :=
  collation e (PushToken.token r) = collation e token.

#[global] Instance carries_dec e token r : Decision (carries e token r) :=
  decide (collation e (PushToken.token r) = collation e token).

(** [findUnique({ where: { token } })] *)
Definition findUnique (token : string) : M (option PushToken.t) :=
  let* _ := call (PushToken_findUnique token) in
  λ w, (snd <$> list_find (carries (engine w) token) (pushTokens w), w).

Fixpoint updateWhere (e : Engine) (token : string)
    (f : PushToken.t → PushToken.t) (rows : list PushToken.t)
  : list PushToken.t :=
  match rows with
  | [] => []
  | r :: rows =>
      if decide (carries e token r) then f r :: rows
      else r :: updateWhere e token f rows
  end.

(** [update({ where: { token }, data })]: the row carrying the unique
    token is rewritten; a field that is [undefined] in [data] is left as
    it is.  Returns the rewritten row, as read back; [None] when the call
    throws: no row carries the token, or the platform does not fit its
    column. *)
Definition updateData (now : Time) (platform : option string)
    (deviceInfo : option Json) (r : PushToken.t) : PushToken.t :=
  PushToken.mk (PushToken.id r) (PushToken.token r)
    (default (PushToken.platform r) platform)
    (match deviceInfo with Some d => Some d | None => PushToken.deviceInfo r end)
    true (PushToken.createdAt r) now now.

Definition update (now : Time) (token : string)
    (platform : option string) (deviceInfo : option Json)
  : M (option PushToken.t) :=
  let* _ := call (PushToken_update token) in
  λ w, if match platform with Some p => varchar (engine w) p | None => true end
       then
         let rows := updateWhere (engine w) token
                       (updateData now platform deviceInfo) (pushTokens w) in
         (snd <$> list_find (carries (engine w) token) rows,
          set_pushTokens rows w)
       else (None, w).

(** [create({ data: { token, platform, deviceInfo, isActive: true } })]:
    [None] when the call throws: the token or the platform does not fit
    its column, or a stored row carries the token already (the unique
    index). *)
Definition create (now : Time) (token platform : string)
    (deviceInfo : option Json) : M (option PushToken.t) :=
  let* _ := call (PushToken_create token) in
  λ w, if varchar (engine w) token && varchar (engine w) platform
          && bool_decide (Forall (λ r, ¬ carries (engine w) token r)
                                 (pushTokens w))
       then
         (let* id := freshId in
          let r := PushToken.mk id token platform deviceInfo true now now now in
          λ w, (Some r, set_pushTokens (pushTokens w ++ [r]) w)) w
       else (None, w).

(** [updateMany({ where: { token }, data: { isActive: false } })] *)
Definition deactivate (e : Engine) (now : Time) (token : string)
    (r : PushToken.t) : PushToken.t :=
  if decide (carries e token r)
  then PushToken.mk (PushToken.id r) (PushToken.token r)
         (PushToken.platform r) (PushToken.deviceInfo r) false
         (PushToken.createdAt r) now (PushToken.lastUsedAt r)
  else r.

Definition updateMany_isActive_false (now : Time) (token : string)
  : M nat :=
  let* _ := call (PushToken_updateMany_isActive_false token) in
  λ w, (length (filter (carries (engine w) token) (pushTokens w)),
        set_pushTokens (deactivate (engine w) now token <$> pushTokens w) w).

(** [updateMany({ where: { id: { in: ids } }, data: { lastUsedAt } })];
    identifiers are the generated ones (lower-case letters and digits), on
    which the collations agree with equality. *)
Definition touch (ids : list Id) (now : Time) (r : PushToken.t)
  : PushToken.t :=
  if decide (PushToken.id r ∈ ids)
  then PushToken.mk (PushToken.id r) (PushToken.token r)
         (PushToken.platform r) (PushToken.deviceInfo r)
         (PushToken.isActive r) (PushToken.createdAt r) now now
  else r.

Definition updateMany_lastUsedAt (ids : list Id) (now : Time) : M nat :=
  let* _ := call (PushToken_updateMany_lastUsedAt ids now) in
  λ w, (length (filter (λ r, PushToken.id r ∈ ids) (pushTokens w)),
        set_pushTokens (touch ids now <$> pushTokens w) w).

End prisma_pushToken.

(** ** Prisma client: notificationLog *)

Module prisma_notificationLog.

(** [create({ data: { tokenId, title, body, data, status, ticketId } })]:
    [None] when the call throws, because the title or the body does not
    fit its column.  (The other texts of the row are the identifier of a
    stored token and the status the handler writes.) *)
Definition create (now : Time) (tokenId : Id) (title body : string)
    (data : Json) (status : string) (ticketId : option string)
  : M (option NotificationLog.t) :=
  let* _ := call (NotificationLog_create tokenId) in
  λ w, if varchar (engine w) title && varchar (engine w) body
       then
         (let* id := freshId in
          let r := NotificationLog.mk id (Some tokenId) title body (Some data)
                     status ticketId None None None now None None in
          λ w, (Some r, set_notificationLogs (notificationLogs w ++ [r]) w)) w
       else (None, w).

End prisma_notificationLog.

(** ** POST /api/notifications/send: the broadcast pipeline *)

Module Send.

Record SendNotificationRequest := mkRequest {
  title : option string;
  body : option string;
  data : option (list (string * Json));
  sound : option string;
  badge : option Z;
  priority : option Priority;
}.

(** The JSON body of a 200 response; [tickets] and [errors] are absent
    from the body when [None]. *)
Record Result := mkResult {
  success : bool;
  message : string;
  sent : nat;
  tickets : option (list ExpoPushTicket);
  errors : option (list GatewayError);
}.

(** The [for (const chunk of chunks)] loop: one send call per chunk, in
    order; a call that throws adds its error and the loop goes on. *)
Fixpoint dispatch (expo : Expo) (chunks : list (list ExpoPushMessage.t))
    (tickets : list ExpoPushTicket) (errors : list GatewayError)
  : M (list ExpoPushTicket * list GatewayError) :=
  match chunks with
  | [] => ret (tickets, errors)
  | chunk :: chunks =>
      let* outcome := (λ w,
        (sendPushNotificationsAsync expo (length (trace w)) chunk,
         log_calls [Expo_sendPushNotificationsAsync chunk] w)) in
      match outcome with
      | inl ticketChunk => dispatch expo chunks (tickets ++ ticketChunk) errors
      | inr error => dispatch expo chunks tickets (errors ++ [error])
      end
  end.

(** [tokens.map(tokenRecord => prisma.notificationLog.create(...))]
    settled together by [Promise.allSettled]: a write that throws is
    passed over. *)
Fixpoint logPromises (now : Time) (title body : string) (data : Json)
    (tokens : list PushToken.t) : M unit :=
  match tokens with
  | [] => ret tt
  | tokenRecord :: tokens =>
      let* _ := prisma_notificationLog.create now
                  (PushToken.id tokenRecord) title body data "sent" None in
      logPromises now title body data tokens
  end.

Definition POST (expo : Expo) (now : Time)
    (request : option SendNotificationRequest) : M (Response Result) :=
  match request with
  | None => ret (Error 500 "Failed to send notification")
  | Some requestBody =>
      let sound := default "default" (sound requestBody) in
      let priority := default PriorityHigh (priority requestBody) in
      if negb (truthy (title requestBody)) || negb (truthy (body requestBody))
      then ret (Error 400 "title and body are required")
      else
        let title := default "" (title requestBody) in
        let body := default "" (body requestBody) in
        let data := JObj (default [] (data requestBody)) in
        let* tokens := prisma_pushToken.findMany_active in
        if decide (length tokens = 0)
        then ret (Ok (mkResult false "No active tokens found" 0 None None))
        else
          let messages :=
            (λ tokenRecord,
               ExpoPushMessage.mk (PushToken.token tokenRecord) sound title
                 body data (badge requestBody) priority)
            <$> filter (λ t, isExpoPushToken expo (PushToken.token t)) tokens in
          let chunks := chunkPushNotifications expo messages in
          let* (tickets, errors) := dispatch expo chunks [] [] in
          let* _ := logPromises now title body data tokens in
          let* _ := prisma_pushToken.updateMany_lastUsedAt
                      (PushToken.id <$> tokens) now in
          ret (Ok (mkResult true
                     ("Sent " +:+ pretty (length messages) +:+ " notifications")
                     (length messages)
                     (Some tickets)
                     (if decide (0 < length errors) then Some errors else None)))
  end.

End Send.

(** ** POST /api/notifications/register-token *)

Module RegisterToken.

Record Body := mkBody {
  token : option string;
  platform : option string;
  deviceInfo : option Json;
}.

Record Result := mkResult {
  success : bool;
  message : string;
  tokenId : Id;
}.

Definition POST (expo : Expo) (now : Time) (request : option Body)
  : M (Response Result) :=
  let invalid := ret (Error 400 "Invalid Expo push token format") in
  let failed := ret (Error 500 "Failed to register token") in
  match request with
  | None => failed
  | Some body =>
      match token body with
      | None => invalid
      | Some expoPushToken =>
          if negb (isExpoPushToken expo expoPushToken) then invalid
          else
            let* existingToken := prisma_pushToken.findUnique expoPushToken in
            match existingToken with
            | Some _ =>
                let* updated := prisma_pushToken.update now expoPushToken
                                  (platform body) (deviceInfo body) in
                match updated with
                | Some updated =>
                    ret (Ok (mkResult true "Token updated successfully"
                               (PushToken.id updated)))
                | None => failed
                end
            | None =>
                (* [platform] is a required column: without it the
                   create call is refused before it reaches the table *)
                match platform body with
                | None => failed
                | Some platform =>
                    let* newToken := prisma_pushToken.create now expoPushToken
                                       platform (deviceInfo body) in
                    match newToken with
                    | Some newToken =>
                        ret (Ok (mkResult true "Token registered successfully"
                                   (PushToken.id newToken)))
                    | None => failed
                    end
                end
            end
      end
  end.

End RegisterToken.

(** ** POST /api/notifications/unregister-token *)

Module UnregisterToken.

Record Body := mkBody {
  expoPushToken : option string;
}.

Record Result := mkResult {
  success : bool;
  message : string;
  count : nat;
}.

Definition POST (now : Time) (request : option Body) : M (Response Result) :=
  match request with
  | None => ret (Error 500 "Failed to unregister token")
  | Some body =>
      if negb (truthy (expoPushToken body))
      then ret (Error 400 "expoPushToken is required")
      else
        let* updated := prisma_pushToken.updateMany_isActive_false now
                          (default "" (expoPushToken body)) in
        ret (Ok (mkResult true "Token unregistered successfully" updated))
  end.

End UnregisterToken.

(** ** /api/logs/error: error intake and its read path *)

(** [parseInt(s)] with no radix: leading white space, a sign, an optional
    [0x] prefix, then the longest run of digits.  The result is a
    JavaScript number: the integer read, rounded to the nearest double
    (ties to even), or [None] for a result that is no finite number ([NaN],
    and the infinities that integers of 2^1024 and more round to).  White
    space is the ASCII part of the JavaScript set. *)
Definition isWhiteSpace (c : ascii) : bool :=
  bool_decide (nat_of_ascii c ∈ [9; 10; 11; 12; 13; 32]).

Fixpoint trimStart (s : string) : string :=
  match s with
  | String c s' => if isWhiteSpace c then trimStart s' else s
  | EmptyString => EmptyString
  end.

Definition digitValue (c : ascii) : option Z :=
  let n := Z.of_nat (nat_of_ascii c) in
  if decide (48 ≤ n ≤ 57)%Z then Some (n - 48)%Z
  else if decide (97 ≤ n ≤ 122)%Z then Some (n - 87)%Z
  else if decide (65 ≤ n ≤ 90)%Z then Some (n - 55)%Z
  else None.

Fixpoint parseDigits (radix : Z) (s : string) (acc : option Z) : option Z :=
  match s with
  | String c s' =>
      match digitValue c with
      | Some d =>
          if decide (d < radix)%Z
          then parseDigits radix s' (Some (default 0 acc * radix + d)%Z)
          else acc
      | None => acc
      end
  | EmptyString => acc
  end.

(** The double nearest to a non-negative integer: integers below 2^53 are
    doubles; above, the 53 leading bits are kept and the rest is rounded. *)
Definition roundToDouble (n : Z) : Z :=
  let e := Z.log2 n in
  if decide (e < 53)%Z then n
  else
    let ulp := (2 ^ (e - 52))%Z in
    let below := (n / ulp * ulp)%Z in
    let rest := (n - below)%Z in
    if decide (2 * rest < ulp)%Z then below
    else if decide (ulp < 2 * rest)%Z then (below + ulp)%Z
    else if Z.even (n / ulp) then below else (below + ulp)%Z.

Definition toNumber (n : Z) : option Z :=
  let m := roundToDouble n in
  if decide (m < 2 ^ 1024)%Z then Some m else None.

Definition parseInt (s : string) : option Z :=
  let s := trimStart s in
  let '(sign, s) :=
    match s with
    | String "-" s' => ((-1)%Z, s')
    | String "+" s' => (1%Z, s')
    | _ => (1%Z, s)
    end in
  let '(radix, s) :=
    match s with
    | String "0" (String "x" s') | String "0" (String "X" s') => (16%Z, s')
    | _ => (10%Z, s)
    end in
  Z.mul sign <$> (parseDigits radix s None ≫= toNumber).


Module prisma_errorLog.

Record Where := mkWhere {
  errorType : option string;
  platform : option string;
}.

(** A row passes [where] when the engine takes each text that the clause
    names for equal to the row's. *)
Definition matches (e : Engine) (whereClause : Where) (r : ErrorLog.t) : bool :=
  match errorType whereClause with
  | Some ty => bool_decide (collation e (ErrorLog.errorType r) = collation e ty)
  | None => true
  end
  &&
  match platform whereClause with
  | Some p => bool_decide (collation e <$> ErrorLog.platform r
                           = Some (collation e p))
  | None => true
  end.

(** [orderBy: { createdAt: "desc" }] *)
Definition newestFirst (a b : ErrorLog.t) : Prop :=
  (ErrorLog.createdAt b ≤ ErrorLog.createdAt a)%Z.

#[global] Instance newestFirst_dec : RelDecision newestFirst :=
  λ a b, Z_le_dec (ErrorLog.createdAt b) (ErrorLog.createdAt a).

(** The same order read from its other end. *)
Definition oldestFirst (a b : ErrorLog.t) : Prop :=
  (ErrorLog.createdAt a ≤ ErrorLog.createdAt b)%Z.

#[global] Instance oldestFirst_dec : RelDecision oldestFirst :=
  λ a b, Z_le_dec (ErrorLog.createdAt a) (ErrorLog.createdAt b).

(** [orderBy] with [take]: the first [take] rows in the order asked for,
    rows of the same time in the order in which the engine visits them.  A
    negative [take] reads the order from its other end: the client asks for
    the opposite order and turns the rows it gets around. *)
Definition takeRows (e : Engine) (n : Z) (rows : list ErrorLog.t)
  : list ErrorLog.t :=
  let visited := merge_sort (byRank (errorLogOrder e)) rows in
  if decide (0 ≤ n)%Z
  then take (Z.to_nat n) (merge_sort newestFirst visited)
  else reverse (take (Z.to_nat (- n)) (merge_sort oldestFirst visited)).

(** The range of a [take] that every engine reads as it is. *)
Definition int32 (n : Z) : Prop := (- 2 ^ 31 ≤ n < 2 ^ 31)%Z.

#[global] Instance int32_dec n : Decision (int32 n) := _.

(** [create({ data })]: [None] when the call throws, because a text does
    not fit its column ([message] and [stackTrace] are [TEXT] columns, the
    others [VARCHAR(191)]). *)
Definition fits (e : Engine) (tokenId platform : option string)
    (errorType message : string) (stackTrace appVersion : option string)
  : bool :=
  from_option (varchar e) true tokenId
  && from_option (varchar e) true platform
  && varchar e errorType
  && text e message
  && from_option (text e) true stackTrace
  && from_option (varchar e) true appVersion.

Definition create (now : Time) (tokenId platform : option string)
    (errorType message : string) (stackTrace : option string)
    (context : option Json) (appVersion : option string)
  : M (option ErrorLog.t) :=
  let* _ := call ErrorLog_create in
  λ w, if fits (engine w) tokenId platform errorType message stackTrace
            appVersion
       then
         (let* id := freshId in
          let r := ErrorLog.mk id tokenId platform errorType message stackTrace
                     context appVersion now in
          λ w, (Some r, set_errorLogs (errorLogs w ++ [r]) w)) w
       else (None, w).

(** [findMany({ where, orderBy: { createdAt: "desc" }, take })]; [None]
    when the engine refuses the [take]. *)
Definition findMany (whereClause : Where) (take : Z)
  : M (option (list ErrorLog.t)) :=
  let* _ := call ErrorLog_findMany in
  λ w, ((λ n, takeRows (engine w) n
                (filter (λ r, matches (engine w) whereClause r) (errorLogs w)))
        <$> (if decide (int32 take) then Some take
             else wideTake (engine w) take),
        w).

(** [count({ where })] *)
Definition count (whereClause : Where) : M nat :=
  let* _ := call ErrorLog_count in
  λ w, (length (filter (λ r, matches (engine w) whereClause r) (errorLogs w)),
        w).

(** The groups of [groupBy({ by: ["errorType"], _count: true })] over a
    list of rows: one group per error type that the engine tells apart,
    under the spelling of the row it visits first, with the number of rows
    of the group. *)
Definition groups (e : Engine) (rows : list ErrorLog.t) : list (string * nat) :=
  (λ ty, (ty, length (filter (λ r, collation e (ErrorLog.errorType r)
                                   = collation e ty) rows)))
  <$> spellings (collation e) []
        (ErrorLog.errorType <$> merge_sort (byRank (errorTypeOrder e)) rows).

(** [orderBy: { _count: { errorType: "desc" } }] *)
Definition largestCountFirst (a b : string * nat) : Prop := snd b ≤ snd a.

#[global] Instance largestCountFirst_dec : RelDecision largestCountFirst :=
  λ a b, le_dec (snd b) (snd a).

(** [groupBy({ by: ["errorType"], _count: true,
               orderBy: { _count: { errorType: "desc" } } })]:
    the call carries no [where]. *)
Definition groupBy_errorType : M (list (string * nat)) :=
  let* _ := call ErrorLog_groupBy in
  λ w, (merge_sort largestCountFirst (groups (engine w) (errorLogs w)), w).

End prisma_errorLog.

Module ErrorLogs.

Record Body := mkBody {
  tokenId : option string;
  platform : option string;
  errorType : option string;
  message : option string;
  stackTrace : option string;
  context : option Json;
  appVersion : option string;
}.

Record PostResult := mkPostResult {
  post_success : bool;
  id : Id;
}.

Definition POST (now : Time) (request : option Body)
  : M (Response PostResult) :=
  match request with
  | None => ret (Error 500 "Failed to log error")
  | Some body =>
      if negb (truthy (errorType body)) || negb (truthy (message body))
      then ret (Error 400 "errorType and message are required")
      else
        let* errorLog := prisma_errorLog.create now
                           (or_null (tokenId body))
                           (or_null (platform body))
                           (default "" (errorType body))
                           (default "" (message body))
                           (or_null (stackTrace body))
                           (json_or_null (context body))
                           (or_null (appVersion body)) in
        match errorLog with
        | Some errorLog => ret (Ok (mkPostResult true (ErrorLog.id errorLog)))
        | None => ret (Error 500 "Failed to log error")
        end
  end.

(** The query string, as [searchParams.get] reads it. *)
Record SearchParams := mkSearchParams {
  sp_limit : option string;
  sp_errorType : option string;
  sp_platform : option string;
}.

Record ErrorTypeCount := mkErrorTypeCount {
  type : string;
  count : nat;
}.

Record Stats := mkStats {
  total : nat;
  errorTypes : list ErrorTypeCount;
}.

Record GetResult := mkGetResult {
  get_success : bool;
  data : list ErrorLog.t;
  stats : Stats;
}.

(** [parseInt(searchParams.get("limit") || "50")] *)
Definition limitOf (searchParams : SearchParams) : option Z :=
  parseInt (if truthy (sp_limit searchParams)
            then default "" (sp_limit searchParams) else "50").

(** [if (errorType) where.errorType = errorType;
     if (platform) where.platform = platform;] *)
Definition whereOf (searchParams : SearchParams) : prisma_errorLog.Where :=
  prisma_errorLog.mkWhere (or_null (sp_errorType searchParams))
                          (or_null (sp_platform searchParams)).

Definition GET (searchParams : SearchParams) : M (Response GetResult) :=
  let whereClause := whereOf searchParams in
  let failed := ret (Error 500 "Failed to fetch error logs") in
  match limitOf searchParams with
  | None =>
      (* a [take] that is no finite number is refused by the client: the
         outer catch answers *)
      failed
  | Some limit =>
      let* errorLogs := prisma_errorLog.findMany whereClause limit in
      match errorLogs with
      | None => failed
      | Some errorLogs =>
          let* total := prisma_errorLog.count whereClause in
          let* errorTypes := prisma_errorLog.groupBy_errorType in
          ret (Ok (mkGetResult true errorLogs
                     (mkStats total
                        ((λ et, mkErrorTypeCount (fst et) (snd et))
                         <$> errorTypes))))
      end
  end.

End ErrorLogs.

(** ** Quantities of the specification *)

(** Outcomes of the send calls of one dispatch loop that starts when [n]
    external calls have been made. *)
Fixpoint batchOutcomes (expo : Expo) (n : nat)
    (chunks : list (list ExpoPushMessage.t))
  : list (list ExpoPushTicket + GatewayError) :=
  match chunks with
  | [] => []
  | chunk :: chunks =>
      sendPushNotificationsAsync expo n chunk :: batchOutcomes expo (S n) chunks
  end.

(** Tickets of the batches that succeeded, in batch order. *)
Definition ticketsOf (outcomes : list (list ExpoPushTicket + GatewayError))
  : list ExpoPushTicket :=
  mjoin (omap (λ o, match o with inl ts => Some ts | inr _ => None end) outcomes).

(** Errors of the batches that failed, in batch order. *)
Definition errorsOf (outcomes : list (list ExpoPushTicket + GatewayError))
  : list GatewayError :=
  omap (λ o, match o with inl _ => None | inr e => Some e end) outcomes.



(** The send set of step 3 and the messages of step 4. *)
Definition sendSet (expo : Expo) (w : World) : list PushToken.t :=
  filter (λ t, isExpoPushToken expo (PushToken.token t))
         (filter (λ r, PushToken.isActive r) (pushTokens w)).

Definition activeTokens (w : World) : list PushToken.t :=
  filter (λ r, PushToken.isActive r) (pushTokens w).

Definition messagesOf (expo : Expo) (req : Send.SendNotificationRequest)
    (w : World) : list ExpoPushMessage.t :=
  (λ tokenRecord,
     ExpoPushMessage.mk (PushToken.token tokenRecord)
       (default "default" (Send.sound req)) (default "" (Send.title req))
       (default "" (Send.body req)) (JObj (default [] (Send.data req)))
       (Send.badge req) (default PriorityHigh (Send.priority req)))
  <$> sendSet expo w.

(** The batches handed to the gateway, read off a trace. *)
Definition gatewayCalls (tr : list Call) : list (list ExpoPushMessage.t) :=
  omap (λ c, match c with
             | Expo_sendPushNotificationsAsync chunk => Some chunk
             | _ => None
             end) tr.

(** Token ids of the log writes, and the id lists of the bulk last-used
    updates, read off a trace. *)
Definition logWrites (tr : list Call) : list Id :=
  omap (λ c, match c with NotificationLog_create i => Some i | _ => None end) tr.

Definition lastUsedUpdates (tr : list Call) : list (list Id) :=
  omap (λ c, match c with
             | PushToken_updateMany_lastUsedAt ids _ => Some ids
             | _ => None
             end) tr.

(** The calls a handler run adds to the trace. *)
Definition newCalls (w w' : World) : list Call :=
  drop (length (trace w)) (trace w').

(** Outcomes of the send calls of one broadcast: the loop starts right
    after the snapshot read. *)
Definition outcomesOf (expo : Expo) (req : Send.SendNotificationRequest)
    (w : World) : list (list ExpoPushTicket + GatewayError) :=
  batchOutcomes expo (S (length (trace w)))
                (chunkPushNotifications expo (messagesOf expo req w)).

(** The log rows one broadcast writes for [tokens], the first of them
    taking the [n]-th identifier. *)
Fixpoint logRows (now : Time) (title body : string) (data : Json) (n : nat)
    (tokens : list PushToken.t) : list NotificationLog.t :=
  match tokens with
  | [] => []
  | t :: tokens =>
      NotificationLog.mk ("c" +:+ pretty n) (Some (PushToken.id t)) title body
        (Some data) "sent" None None None None now None None
      :: logRows now title body data (S n) tokens
  end.

(** Whether the log table takes the rows of a broadcast: its title and
    body must fit their columns. *)
Definition loggable (req : Send.SendNotificationRequest) (w : World) : bool :=
  varchar (engine w) (default "" (Send.title req))
  && varchar (engine w) (default "" (Send.body req)).

(** The log rows a broadcast adds to the table: one per active token, or
    none when the table refuses them. *)
Definition newLogRows (now : Time) (req : Send.SendNotificationRequest)
    (w : World) : list NotificationLog.t :=
  if loggable req w
  then logRows now (default "" (Send.title req)) (default "" (Send.body req))
         (JObj (default [] (Send.data req))) (nextId w) (activeTokens w)
  else [].

(** The world a completed broadcast leaves behind. *)
Definition afterBroadcast (expo : Expo) (now : Time)
    (req : Send.SendNotificationRequest) (w : World) : World :=
  let tokens := activeTokens w in
  mkWorld
    (engine w)
    (prisma_pushToken.touch (PushToken.id <$> tokens) now <$> pushTokens w)
    (notificationLogs w ++ newLogRows now req w)
    (errorLogs w)
    (nextId w + length (newLogRows now req w))
    (trace w
       ++ [PushToken_findMany_active]
       ++ (Expo_sendPushNotificationsAsync
             <$> chunkPushNotifications expo (messagesOf expo req w))
       ++ (NotificationLog_create ∘ PushToken.id <$> tokens)
       ++ [PushToken_updateMany_lastUsedAt (PushToken.id <$> tokens) now]).

(** ** Sequences of requests *)

Inductive Request :=
| SendRequest (now : Time) (request : option Send.SendNotificationRequest)
| RegisterRequest (now : Time) (request : option RegisterToken.Body)
| UnregisterRequest (now : Time) (request : option UnregisterToken.Body)
| ErrorLogRequest (now : Time) (request : option ErrorLogs.Body)
| ErrorLogQuery (searchParams : ErrorLogs.SearchParams).

Definition serve (expo : Expo) (r : Request) (w : World) : World :=
  match r with
  | SendRequest now request => snd (Send.POST expo now request w)
  | RegisterRequest now request => snd (RegisterToken.POST expo now request w)
  | UnregisterRequest now request => snd (UnregisterToken.POST now request w)
  | ErrorLogRequest now request => snd (ErrorLogs.POST now request w)
  | ErrorLogQuery searchParams => snd (ErrorLogs.GET searchParams w)
  end.

Definition serveAll (expo : Expo) (rs : list Request) (w : World) : World :=
  foldl (λ w r, serve expo r w) w rs.

(** The row [findUnique] returns for a token. *)
Definition rowOf (token : string) (w : World) : option PushToken.t :=
  snd <$> list_find (prisma_pushToken.carries (engine w) token) (pushTokens w).

(** Number of rows that carry a token string. *)
Definition tokenCount (token : string) (w : World) : nat :=
  length (filter (prisma_pushToken.carries (engine w) token) (pushTokens w)).

(** The unique index on the token column. *)
Definition uniqueTokens (w : World) : Prop :=
  NoDup (collation (engine w) ∘ PushToken.token <$> pushTokens w).

(** A row passes the filters of a query when the engine takes its error
    type and its platform for equal to those the query names; a filter
    that is absent or empty is none. *)
Definition passes (e : Engine) (sp : ErrorLogs.SearchParams) (r : ErrorLog.t)
  : Prop :=
  (∀ ty, ErrorLogs.sp_errorType sp = Some ty → ty ≠ "" →
         collation e (ErrorLog.errorType r) = collation e ty)
  ∧ (∀ p, ErrorLogs.sp_platform sp = Some p → p ≠ "" →
          collation e <$> ErrorLog.platform r = Some (collation e p)).

(** Whether the platform of a registration fits its column. *)
Definition platformFits (body : RegisterToken.Body) (w : World) : bool :=
  match RegisterToken.platform body with
  | Some p => varchar (engine w) p
  | None => true
  end.

(** Whether the texts of an error report fit their columns. *)
Definition storable (body : ErrorLogs.Body) (w : World) : bool :=
  prisma_errorLog.fits (engine w)
    (or_null (ErrorLogs.tokenId body)) (or_null (ErrorLogs.platform body))
    (default "" (ErrorLogs.errorType body)) (default "" (ErrorLogs.message body))
    (or_null (ErrorLogs.stackTrace body)) (or_null (ErrorLogs.appVersion body)).

(** Two versions of the token table that agree, row by row, on identifier
    and token string. *)
Definition sameKeys (rows rows' : list PushToken.t) : Prop :=
  Forall2 (λ r r', PushToken.id r' = PushToken.id r
                   ∧ PushToken.token r' = PushToken.token r) rows rows'.

(** ** A gateway, engines and databases for the examples *)

(** A stand-in for the SQLite tables: texts are compared as they are and
    every text fits; rows are visited in the order of the table. *)
Definition sqliteEngine : Engine :=
  mkEngine (λ s, s) (λ _, true) (λ _, true) (λ _, 0) (λ _, 0) (λ _, 0)
           (λ _, None).

(** A stand-in for the MySQL tables: the comparison key folds the ASCII
    capitals (as [utf8mb4_unicode_ci] does on ASCII letters), a
    [VARCHAR(191)] column takes 191 characters and a [TEXT] column 65535
    bytes, on ASCII texts; rows are visited in the order of the table. *)
Definition lower (c : ascii) : ascii :=
  let n := nat_of_ascii c in
  if decide (65 ≤ n ≤ 90) then ascii_of_nat (n + 32) else c.

Fixpoint fold_case (s : string) : string :=
  match s with
  | EmptyString => EmptyString
  | String c s => String (lower c) (fold_case s)
  end.

Definition mysqlEngine : Engine :=
  mkEngine fold_case
           (λ s, bool_decide (String.length s ≤ 191))
           (λ s, bool_decide (Z.of_nat (String.length s) ≤ 65535)%Z)
           (λ _, 0) (λ _, 0) (λ _, 0) (λ _, None).


(** A stand-in gateway: an address is well formed when it starts with
    [ExponentPushToken[]; the send calls made at the times in [failing]
    throw, the others return one ticket per message. *)
Definition stubExpo (limit : nat) (failing : list nat) : Expo :=
  mkExpo (String.prefix "ExponentPushToken[")
         limit
         (λ n chunk,
            if decide (n ∈ failing) then inr "network failure"
            else inl ((λ m, TicketOk (ExpoPushMessage.to m)) <$> chunk)).

Definition sampleToken (active : bool) (address : string) (n : nat)
  : PushToken.t :=
  PushToken.mk ("tok" +:+ pretty n) (address +:+ pretty n +:+ "]") "ios" None
               active 0%Z 0%Z 0%Z.

Definition emptyWorld : World := mkWorld mysqlEngine [] [] [] 0 [].

(** [n] active tokens with well-formed addresses. *)
Definition audience (n : nat) : World :=
  mkWorld mysqlEngine (sampleToken true "ExponentPushToken[" <$> seq 0 n)
          [] [] 0 [].

(** One well-formed and one malformed address, both active. *)
Definition mixedAudience : World :=
  mkWorld mysqlEngine
          [sampleToken true "ExponentPushToken[" 0;
           sampleToken true "not-a-push-token[" 1] [] [] 0 [].

(** Three stored error reports, oldest first. *)
Definition sampleErrors : World :=
  mkWorld mysqlEngine [] []
    [ErrorLog.mk "e0" None (Some "ios") "crash" "m0" None None None 10%Z;
     ErrorLog.mk "e1" None (Some "android") "network" "m1" None None None 20%Z;
     ErrorLog.mk "e2" None (Some "android") "crash" "m2" None None None 30%Z]
    3 [].

Definition hello : Send.SendNotificationRequest :=
  Send.mkRequest (Some "Hello") (Some "World") None None None None.

(** ** GET /api/notifications/stats *)

(** The statistics route only reads: counts over the token table and the
    notification log.  It is a function of the tables and of the time of
    the request. *)
Module Stats.

Record PlatformCount := mkPlatformCount {
  platform : string;
  count : nat;
}.

Record Body := mkBody {
  totalActiveTokens : nat;
  totalInactiveTokens : nat;
  platformBreakdown : list PlatformCount;
  notificationsSent24h : nat;
  totalNotificationsSent : nat;
}.

Record Result := mkResult {
  success : bool;
  stats : Body;
}.

(** [prisma.pushToken.count({ where: { isActive: true } })] *)
Definition totalActive (w : World) : nat :=
  length (filter (λ r, PushToken.isActive r) (pushTokens w)).

(** [prisma.pushToken.count({ where: { isActive: false } })] *)
Definition totalInactive (w : World) : nat :=
  length (filter (λ r, ¬ PushToken.isActive r) (pushTokens w)).

(** [prisma.pushToken.groupBy({ by: ['platform'],
                                where: { isActive: true }, _count: true })]:
    one group per platform of an active row that the engine tells apart,
    under the spelling of the row it visits first, in the order in which it
    visits them. *)
Definition byPlatform (w : World) : list (string * nat) :=
  let e := engine w in
  let rows := filter (λ r, PushToken.isActive r) (pushTokens w) in
  (λ p, (p, length (filter (λ r, collation e (PushToken.platform r)
                                 = collation e p) rows)))
  <$> spellings (collation e) []
        (PushToken.platform <$> merge_sort (byRank (platformOrder e)) rows).

(** [24 * 60 * 60 * 1000] *)
Definition dayMs : Z := (24 * 60 * 60 * 1000)%Z.

(** [prisma.notificationLog.count({ where: { sentAt: { gte: since } } })] *)
Definition recentNotifications (since : Time) (w : World) : nat :=
  length (filter (λ l, (since ≤ NotificationLog.sentAt l)%Z) (notificationLogs w)).

(** [prisma.notificationLog.count()] *)
Definition totalNotifications (w : World) : nat :=
  length (notificationLogs w).

Definition GET (now : Time) (w : World) : Response Result :=
  Ok (mkResult true
        (mkBody (totalActive w) (totalInactive w)
           ((λ p, mkPlatformCount p.1 p.2) <$> byPlatform w)
           (recentNotifications (now - dayMs)%Z w)
           (totalNotifications w))).

End Stats.

(** ** The admin dashboard (app/page.tsx) *)

(** The parts of the dashboard that decide what is sent: the state of the
    form, the [disabled] condition of the send button, the payload, and the
    click handler, in which the two [fetch] calls are the calls of the
    routes (the network delivers). *)
Module Home.

Record State := mkState {
  title : string;
  body : string;
  loading : bool;
}.

(** [disabled={loading || !title || !body}] *)
Definition sendDisabled (st : State) : bool :=
  loading st || negb (truthy (Some (title st))) || negb (truthy (Some (body st))).

(** [{ title, body, data: { sentFrom: "admin-dashboard", timestamp } }] *)
Definition payload (timestamp : string) (st : State)
  : Send.SendNotificationRequest :=
  Send.mkRequest (Some (title st)) (Some (body st))
    (Some [("sentFrom", JStr "admin-dashboard"); ("timestamp", JStr timestamp)])
    None None None.

(** What the click leaves in the component: [result], and the statistics
    if they were fetched again. *)
Record Outcome := mkOutcome {
  result : Response Send.Result;
  refreshedStats : option (Response Stats.Result);
}.

(** [sendNotification]: post the payload; [if (data.success)] fetch the
    statistics again (at time [later]). *)
Definition sendNotification (expo : Expo) (now later : Time)
    (timestamp : string) (st : State) : M Outcome :=
  let* data := Send.POST expo now (Some (payload timestamp st)) in
  match data with
  | Ok b =>
      if Send.success b
      then λ w, (mkOutcome data (Some (Stats.GET later w)), w)
      else ret (mkOutcome data None)
  | Error _ _ => ret (mkOutcome data None)
  end.

End Home.

(** ** The error-logs page (the admin page over [/api/logs/error]) *)

Module ErrorLogsAdmin.

Record State := mkState {
  filterType : string;
  filterPlatform : string;
  logs : list ErrorLog.t;
  stats : option ErrorLogs.Stats;
}.

(** [if (filterType) params.append('errorType', filterType);
     if (filterPlatform) params.append('platform', filterPlatform);]
    no limit is ever sent. *)
Definition params (st : State) : ErrorLogs.SearchParams :=
  ErrorLogs.mkSearchParams None
    (if truthy (Some (filterType st)) then Some (filterType st) else None)
    (if truthy (Some (filterPlatform st)) then Some (filterPlatform st)
     else None).

(** [fetchLogs]: [if (data.success) { setLogs(data.data);
    setStats(data.stats); }]; an error body has no [success]. *)
Definition fetchLogs (st : State) : M State :=
  let* data := ErrorLogs.GET (params st) in
  match data with
  | Ok b =>
      if ErrorLogs.get_success b
      then ret (mkState (filterType st) (filterPlatform st)
                  (ErrorLogs.data b) (Some (ErrorLogs.stats b)))
      else ret st
  | Error _ _ => ret st
  end.

End ErrorLogsAdmin.

(** ** Shapes of stored rows *)

(** A token row after a broadcast at [now] that reached it. *)
Definition refreshed (now : Time) (r : PushToken.t) : PushToken.t :=
  if PushToken.isActive r
  then PushToken.mk (PushToken.id r) (PushToken.token r) (PushToken.platform r)
         (PushToken.deviceInfo r) true (PushToken.createdAt r) now now
  else r.

(** An error report as the intake stores it: both required fields
    non-empty, and no optional text field holding the empty string. *)
Definition intakeRow (r : ErrorLog.t) : Prop :=
  ErrorLog.errorType r ≠ EmptyString
  ∧ ErrorLog.message r ≠ EmptyString
  ∧ ErrorLog.tokenId r ≠ Some EmptyString
  ∧ ErrorLog.platform r ≠ Some EmptyString
  ∧ ErrorLog.stackTrace r ≠ Some EmptyString
  ∧ ErrorLog.appVersion r ≠ Some EmptyString.

(** A notification log row as the broadcast writes it: status [sent], no
    ticket, receipt, error or delivery data, and a token identifier. *)
Definition broadcastRow (l : NotificationLog.t) : Prop :=
  NotificationLog.status l = "sent"
  ∧ NotificationLog.ticketId l = None
  ∧ NotificationLog.receiptId l = None
  ∧ NotificationLog.errorCode l = None
  ∧ NotificationLog.errorMessage l = None
  ∧ NotificationLog.deliveredAt l = None
  ∧ NotificationLog.readAt l = None
  ∧ is_Some (NotificationLog.tokenId l).

(** Every notification log row points to a stored token row. *)
Definition logsReferToTokens (w : World) : Prop :=
  ∀ l, l ∈ notificationLogs w →
       ∃ r, r ∈ pushTokens w ∧ NotificationLog.tokenId l = Some (PushToken.id r).

(** A database with tokens of both states and some history. *)
Definition busyWorld : World :=
  mkWorld mysqlEngine
          [sampleToken true "ExponentPushToken[" 0;
           sampleToken false "ExponentPushToken[" 1;
           PushToken.mk "tok2" "ExponentPushToken[2]" "android" None true 0%Z 0%Z 0%Z]
          [NotificationLog.mk "n0" (Some "tok0") "Old" "News" None "sent" None
             None None None 1000%Z None None]
          [ErrorLog.mk "e0" None (Some "ios") "crash" "m0" None None None 10%Z]
          0 [].

(** * Properties *)

(** ** Lists *)

Lemma filter_all {A} (P : A → Prop) `{∀ x, Decision (P x)} (l : list A) :
  Forall P l → filter P l = l.
Proof.
  induction 1 as [|x l Hx _ IH]; [done|].
  by rewrite filter_cons_True, IH.
Qed.

Lemma length_filter_split {A} (P : A → Prop) `{∀ x, Decision (P x)} (l : list A) :
  length (filter P l) + length (filter (λ x, ¬ P x) l) = length l.
Proof.
  induction l as [|x l IH]; [done|].
  rewrite !filter_cons. destruct (decide (P x)).
  - rewrite decide_False by tauto. simpl. lia.
  - rewrite decide_True by done. simpl. lia.
Qed.

Lemma sum_list_fmap_add {K} (a b : K → nat) (ks : list K) :
  sum_list ((λ k, a k + b k) <$> ks) = sum_list (a <$> ks) + sum_list (b <$> ks).
Proof. induction ks as [|k ks IH]; [done|]. rewrite !fmap_cons. cbn. lia. Qed.

Lemma sum_list_indicator `{EqDecision K} (k0 : K) (ks : list K) :
  NoDup ks →
  sum_list ((λ k, if decide (k0 = k) then 1 else 0) <$> ks)
  = if decide (k0 ∈ ks) then 1 else 0.
Proof.
  induction 1 as [|k ks Hk Hnd IH]; [done|].
  rewrite fmap_cons. cbn. rewrite IH.
  destruct (decide (k0 = k)) as [->|Hne].
  - rewrite (decide_False (P := k ∈ ks)) by done.
    rewrite decide_True by by left. done.
  - destruct (decide (k0 ∈ ks)).
    + rewrite decide_True by by right. done.
    + rewrite decide_False; [done|]. intros Hin.
      apply elem_of_cons in Hin as [?|?]; done.
Qed.

(** The sizes of the groups of a [groupBy] add up to the number of rows. *)
Lemma sum_group_sizes {A} `{EqDecision K} (f : A → K) (l : list A) (ks : list K) :
  NoDup ks → (∀ x, x ∈ l → f x ∈ ks) →
  sum_list ((λ k, length (filter (λ x, f x = k) l)) <$> ks) = length l.
Proof.
  intros Hnd. induction l as [|x l IH]; intros Hks.
  - cbn. by rewrite sum_list_fmap_const.
  - assert ((λ k, length (filter (λ y, f y = k) (x :: l))) <$> ks
            = (λ k, (if decide (f x = k) then 1 else 0)
                    + length (filter (λ y, f y = k) l)) <$> ks) as ->.
    { apply list_fmap_ext. intros i k _. rewrite filter_cons.
      by destruct (decide (f x = k)). }
    rewrite sum_list_fmap_add, sum_list_indicator by done.
    rewrite decide_True by (apply Hks; by left).
    rewrite IH by (intros y Hy; apply Hks; by right). done.
Qed.

Lemma sum_list_Permutation (l k : list nat) :
  l ≡ₚ k → sum_list l = sum_list k.
Proof. induction 1; cbn; lia. Qed.


Lemma length_filter_filter_le {A} (P Q : A → Prop) `{!∀ x, Decision (P x)}
    `{!∀ x, Decision (Q x)} (l : list A) :
  length (filter P (filter Q l)) ≤ length (filter P l).
Proof.
  apply sublist_length.
  induction l as [|x l IH]; [done|].
  rewrite (filter_cons Q). destruct (decide (Q x)).
  - rewrite !filter_cons. destruct (decide (P x)); [by constructor|done].
  - rewrite filter_cons. destruct (decide (P x)); [by constructor|done].
Qed.

Lemma length_filter_all {A} (P : A → Prop) `{!∀ x, Decision (P x)} (l : list A) :
  length (filter P l) = length l ↔ Forall P l.
Proof.
  split; [|intros Hall; by rewrite filter_all].
  induction l as [|x l IH]; [constructor|].
  destruct (decide (P x)) as [Hx|Hx].
  - rewrite filter_cons_True by done. cbn [length]. intros Hlen.
    constructor; [done|]. apply IH. lia.
  - rewrite filter_cons_False by done. cbn [length]. intros Hlen.
    pose proof (length_filter P l). lia.
Qed.

(** The first spellings of the classes of a list: one per class, each
    taken from the list, and every value of the list in the class of
    one. *)
Lemma spellings_spec key seen values :
  NoDup (key <$> spellings key seen values)
  ∧ (∀ v, v ∈ spellings key seen values → v ∈ values ∧ key v ∉ seen)
  ∧ (∀ v, v ∈ values →
          key v ∈ seen ∨ key v ∈ key <$> spellings key seen values).
Proof.
  revert seen. induction values as [|v values IH]; intros seen.
  - split; [constructor|]. split; intros v Hv; by apply elem_of_nil in Hv.
  - cbn [spellings]. destruct (decide (key v ∈ seen)) as [Hseen|Hnew].
    + destruct (IH seen) as (Hnd & Hin & Hall).
      split; [done|]. split.
      * intros u Hu. destruct (Hin u Hu). split; [by right|done].
      * intros u Hu. apply elem_of_cons in Hu as [->|Hu]; [by left|by apply Hall].
    + destruct (IH (key v :: seen)) as (Hnd & Hin & Hall).
      split; [|split].
      * rewrite fmap_cons. apply NoDup_cons. split; [|done].
        intros Hk. apply list_elem_of_fmap in Hk as (u & Hk & Hu).
        destruct (Hin u Hu) as [_ Hnot]. apply Hnot. rewrite <- Hk. by left.
      * intros u Hu. apply elem_of_cons in Hu as [->|Hu].
        -- split; [by left|done].
        -- destruct (Hin u Hu) as [? Hnot]. split; [by right|].
           intros ?. apply Hnot. by right.
      * intros u Hu. rewrite fmap_cons.
        apply elem_of_cons in Hu as [->|Hu]; [right; by left|].
        destruct (Hall u Hu) as [Hs|Hr]; [|right; by right].
        apply elem_of_cons in Hs as [->|Hs]; [right; by left|by left].
Qed.

(** The groups of a [groupBy]: their counts add up to the number of rows,
    whatever order the rows are visited in. *)
Lemma sum_class_sizes {A} (key : string → string) (f : A → string)
    (rows visited : list A) :
  visited ≡ₚ rows →
  sum_list ((λ ty, length (filter (λ r, key (f r) = key ty) rows))
            <$> spellings key [] (f <$> visited))
  = length rows.
Proof.
  intros Hperm.
  destruct (spellings_spec key [] (f <$> visited)) as (Hnd & _ & Hall).
  rewrite <- (sum_group_sizes (key ∘ f) rows
                (key <$> spellings key [] (f <$> visited)) Hnd).
  - by rewrite <- list_fmap_compose.
  - intros x Hx. rewrite <- Hperm in Hx.
    destruct (Hall (f x)) as [Hs|Hr]; [by apply list_elem_of_fmap_2| |done].
    by apply elem_of_nil in Hs.
Qed.

(** The groups of a [groupBy] with their counts: one group per class that
    the key tells apart, spelled as a row spells it, counting the rows of
    the class; every row is in the class of one. *)
Lemma class_counts_spec {A} (key : string → string) (f : A → string)
    (rows visited : list A) :
  visited ≡ₚ rows →
  let counted :=
    (λ v, (v, length (filter (λ r, key (f r) = key v) rows)))
    <$> spellings key [] (f <$> visited) in
  NoDup (key ∘ fst <$> counted)
  ∧ (∀ v n, (v, n) ∈ counted →
       (∃ r, r ∈ rows ∧ f r = v)
       ∧ n = length (filter (λ r, key (f r) = key v) rows)
       ∧ 0 < n)
  ∧ (∀ r, r ∈ rows → ∃ v n, (v, n) ∈ counted ∧ key v = key (f r))
  ∧ sum_list (snd <$> counted) = length rows.
Proof.
  intros Hperm counted. subst counted.
  destruct (spellings_spec key [] (f <$> visited)) as (Hnd & Hin & Hall).
  split; [by rewrite <- list_fmap_compose|].
  split; [|split].
  - intros v n Hg. apply list_elem_of_fmap in Hg as (v' & [= -> ->] & Hv).
    destruct (Hin v' Hv) as [Hmem _].
    apply list_elem_of_fmap in Hmem as (r & -> & Hr). rewrite Hperm in Hr.
    split; [by exists r|]. split; [done|].
    assert (r ∈ filter (λ r', key (f r') = key (f r)) rows) as Hmem
      by by apply list_elem_of_filter.
    destruct (filter _ rows); [by apply elem_of_nil in Hmem|simpl; lia].
  - intros r Hr. rewrite <- Hperm in Hr.
    destruct (Hall (f r)) as [Hs|Hk];
      [by apply list_elem_of_fmap_2|by apply elem_of_nil in Hs|].
    apply list_elem_of_fmap in Hk as (v & Hk & Hv).
    eexists v, _. split; [|done].
    apply list_elem_of_fmap. exists v. split; [reflexivity|done].
  - rewrite <- list_fmap_compose.
    apply (sum_class_sizes key f rows visited Hperm).
Qed.

(** ** The trace *)

Lemma log_calls_nil w : log_calls [] w = w.
Proof. destruct w; unfold log_calls; simpl. by rewrite app_nil_r. Qed.

Lemma log_calls_app cs ds w :
  log_calls ds (log_calls cs w) = log_calls (cs ++ ds) w.
Proof. unfold log_calls; simpl. by rewrite app_assoc. Qed.

Lemma newCalls_log_calls cs w : newCalls w (log_calls cs w) = cs.
Proof. unfold newCalls, log_calls; simpl. by rewrite drop_app_length. Qed.

(** ** The gateway's partition *)

Section Chunks.
Context {A : Type}.
Implicit Types (chunk messages : list A) (limit : nat).

Lemma chunkLoop_concat limit chunk messages :
  mjoin (chunkLoop limit chunk messages) = chunk ++ messages.
Proof.
  revert chunk. induction messages as [|m rest IH]; intros chunk; simpl.
  - case_decide as H; simpl.
    + apply nil_length_inv in H. by subst.
    + by rewrite !app_nil_r.
  - case_decide; simpl; rewrite IH; simpl; by rewrite <- app_assoc.
Qed.

End Chunks.


(** ** One run of the broadcast pipeline *)

Lemma length_logRows now title body data n tokens :
  length (logRows now title body data n tokens) = length tokens.
Proof. revert n. induction tokens; intros n; simpl; [done|]. by rewrite IHtokens. Qed.

Section Broadcast.
Variable expo : Expo.
Variable now : Time.

Lemma dispatch_run chunks tickets errors w :
  Send.dispatch expo chunks tickets errors w
  = ((tickets ++ ticketsOf (batchOutcomes expo (length (trace w)) chunks),
      errors ++ errorsOf (batchOutcomes expo (length (trace w)) chunks)),
     log_calls (Expo_sendPushNotificationsAsync <$> chunks) w).
Proof.
  revert tickets errors w.
  induction chunks as [|chunk chunks IH]; intros tickets errors w.
  - simpl. unfold ret, ticketsOf, errorsOf. simpl.
    by rewrite !app_nil_r, log_calls_nil.
  - cbn [Send.dispatch batchOutcomes]. unfold bind.
    assert (length (trace (log_calls [Expo_sendPushNotificationsAsync chunk] w))
            = S (length (trace w))) as Hlen.
    { unfold log_calls; simpl. rewrite length_app; simpl; lia. }
    destruct (sendPushNotificationsAsync expo (length (trace w)) chunk)
      as [ticketChunk|error]; rewrite IH, Hlen, log_calls_app;
      unfold ticketsOf, errorsOf; simpl; by rewrite <- ?app_assoc.
Qed.

Lemma logPromises_run title body data tokens w :
  Send.logPromises now title body data tokens w
  = (tt, mkWorld (engine w) (pushTokens w)
           (notificationLogs w
              ++ (if varchar (engine w) title && varchar (engine w) body
                  then logRows now title body data (nextId w) tokens else []))
           (errorLogs w)
           (nextId w
            + (if varchar (engine w) title && varchar (engine w) body
               then length tokens else 0))
           (trace w ++ (NotificationLog_create ∘ PushToken.id <$> tokens))).
Proof.
  revert w. induction tokens as [|t tokens IH]; intros w.
  - destruct w; simpl. unfold ret.
    destruct (_ && _); by rewrite !app_nil_r, Nat.add_0_r.
  - cbn [Send.logPromises]. unfold bind at 1.
    unfold prisma_notificationLog.create, bind, call, freshId. simpl.
    destruct (varchar (engine w) title && varchar (engine w) body) eqn:Hfits.
    + rewrite IH. simpl. rewrite Hfits, <- !app_assoc. simpl.
      do 2 f_equal. lia.
    + rewrite IH. simpl. rewrite Hfits, <- !app_assoc. done.
Qed.

Lemma POST_invalid req w :
  truthy (Send.title req) = false ∨ truthy (Send.body req) = false →
  Send.POST expo now (Some req) w
  = (Error 400 "title and body are required", w).
Proof.
  intros H. unfold Send.POST.
  destruct H as [-> | ->]; simpl; rewrite ?orb_true_r; done.
Qed.

Lemma POST_empty req w :
  truthy (Send.title req) = true → truthy (Send.body req) = true →
  activeTokens w = [] →
  Send.POST expo now (Some req) w
  = (Ok (Send.mkResult false "No active tokens found" 0 None None),
     log_calls [PushToken_findMany_active] w).
Proof.
  intros Ht Hb Hnil. unfold Send.POST. rewrite Ht, Hb. simpl.
  unfold bind at 1. unfold prisma_pushToken.findMany_active, bind, call.
  simpl. fold (activeTokens w). rewrite Hnil. done.
Qed.

Lemma POST_run req w :
  truthy (Send.title req) = true → truthy (Send.body req) = true →
  activeTokens w ≠ [] →
  Send.POST expo now (Some req) w
  = (Ok (Send.mkResult true
           ("Sent " +:+ pretty (length (messagesOf expo req w))
              +:+ " notifications")
           (length (messagesOf expo req w))
           (Some (ticketsOf (outcomesOf expo req w)))
           (if decide (0 < length (errorsOf (outcomesOf expo req w)))
            then Some (errorsOf (outcomesOf expo req w)) else None)),
     afterBroadcast expo now req w).
Proof.
  intros Ht Hb Hne. unfold Send.POST. rewrite Ht, Hb. simpl.
  unfold bind at 1. unfold prisma_pushToken.findMany_active, bind, call.
  simpl. fold (activeTokens w).
  case_decide as Hlen; [by apply nil_length_inv in Hlen|].
  rewrite dispatch_run. simpl.
  rewrite logPromises_run.
  unfold ret, outcomesOf, afterBroadcast, newLogRows, loggable, messagesOf,
    sendSet, set_pushTokens, log_calls, activeTokens. simpl.
  rewrite length_app. simpl. rewrite Nat.add_1_r, <- !app_assoc.
  destruct (_ && _); rewrite ?length_logRows; reflexivity.
Qed.

End Broadcast.

(** ** What a broadcast leaves in the trace and in the log table *)

Lemma gatewayCalls_app tr tr' :
  gatewayCalls (tr ++ tr') = gatewayCalls tr ++ gatewayCalls tr'.
Proof. apply omap_app. Qed.

Lemma logWrites_app tr tr' : logWrites (tr ++ tr') = logWrites tr ++ logWrites tr'.
Proof. apply omap_app. Qed.

Lemma lastUsedUpdates_app tr tr' :
  lastUsedUpdates (tr ++ tr') = lastUsedUpdates tr ++ lastUsedUpdates tr'.
Proof. apply omap_app. Qed.

Lemma gatewayCalls_sends chunks :
  gatewayCalls (Expo_sendPushNotificationsAsync <$> chunks) = chunks.
Proof. induction chunks; simpl; [done|]. unfold gatewayCalls in *; simpl. by f_equal. Qed.

Lemma gatewayCalls_creates (tokens : list PushToken.t) :
  gatewayCalls (NotificationLog_create ∘ PushToken.id <$> tokens) = [].
Proof. induction tokens; done. Qed.

Lemma logWrites_sends chunks :
  logWrites (Expo_sendPushNotificationsAsync <$> chunks) = [].
Proof. induction chunks; done. Qed.

Lemma logWrites_creates (tokens : list PushToken.t) :
  logWrites (NotificationLog_create ∘ PushToken.id <$> tokens)
  = PushToken.id <$> tokens.
Proof. induction tokens; simpl; [done|]. unfold logWrites in *; simpl. by f_equal. Qed.

Lemma lastUsedUpdates_sends chunks :
  lastUsedUpdates (Expo_sendPushNotificationsAsync <$> chunks) = [].
Proof. induction chunks; done. Qed.

Lemma lastUsedUpdates_creates (tokens : list PushToken.t) :
  lastUsedUpdates (NotificationLog_create ∘ PushToken.id <$> tokens) = [].
Proof. induction tokens; done. Qed.

Lemma newCalls_afterBroadcast expo now req w :
  newCalls w (afterBroadcast expo now req w)
  = [PushToken_findMany_active]
    ++ (Expo_sendPushNotificationsAsync
          <$> chunkPushNotifications expo (messagesOf expo req w))
    ++ (NotificationLog_create ∘ PushToken.id <$> activeTokens w)
    ++ [PushToken_updateMany_lastUsedAt (PushToken.id <$> activeTokens w) now].
Proof. unfold newCalls, afterBroadcast. cbn [trace]. by rewrite drop_app_length. Qed.

Lemma gatewayCalls_afterBroadcast expo now req w :
  gatewayCalls (newCalls w (afterBroadcast expo now req w))
  = chunkPushNotifications expo (messagesOf expo req w).
Proof.
  rewrite newCalls_afterBroadcast, !gatewayCalls_app, gatewayCalls_sends,
    gatewayCalls_creates. simpl. by rewrite app_nil_r.
Qed.

Lemma logWrites_afterBroadcast expo now req w :
  logWrites (newCalls w (afterBroadcast expo now req w))
  = PushToken.id <$> activeTokens w.
Proof.
  rewrite newCalls_afterBroadcast, !logWrites_app, logWrites_sends,
    logWrites_creates. simpl. by rewrite app_nil_r.
Qed.

Lemma lastUsedUpdates_afterBroadcast expo now req w :
  lastUsedUpdates (newCalls w (afterBroadcast expo now req w))
  = [PushToken.id <$> activeTokens w].
Proof.
  rewrite newCalls_afterBroadcast, !lastUsedUpdates_app, lastUsedUpdates_sends,
    lastUsedUpdates_creates. done.
Qed.




Lemma sendSet_subset expo w t : t ∈ sendSet expo w → t ∈ activeTokens w.
Proof. unfold sendSet. rewrite list_elem_of_filter. by intros [_ ?]. Qed.

Lemma sendSet_all_valid expo w :
  Forall (λ t, isExpoPushToken expo (PushToken.token t)) (activeTokens w) →
  sendSet expo w = activeTokens w.
Proof.
  intros H. unfold sendSet. fold (activeTokens w).
  induction H as [|t l Ht Hl IH]; [done|].
  rewrite filter_cons_True by done. by rewrite IH.
Qed.

Lemma length_messagesOf expo req w :
  length (messagesOf expo req w) = length (sendSet expo w).
Proof. unfold messagesOf. by rewrite length_fmap. Qed.


Lemma chunks_concat expo (messages : list ExpoPushMessage.t) :
  mjoin (chunkPushNotifications expo messages) = messages.
Proof. unfold chunkPushNotifications. by rewrite chunkLoop_concat. Qed.

(** ** Specified properties of the broadcast pipeline *)

(** C3.  A broadcast request whose title or body is missing or empty is
    answered with the 400 validation error and leaves the world exactly as
    it was: nothing is added to the trace (no token-store read, no gateway
    call, no log write, no last-used update) and no table changes. *)
Theorem C3_invalid_request_has_no_effect expo now req w :
  Send.title req = None ∨ Send.title req = Some EmptyString
  ∨ Send.body req = None ∨ Send.body req = Some EmptyString →
  Send.POST expo now (Some req) w
  = (Error 400 "title and body are required", w)
  ∧ newCalls w (Send.POST expo now (Some req) w).2 = [].
Proof.
  intros H.
  assert (truthy (Send.title req) = false ∨ truthy (Send.body req) = false)
    as Hfalsy.
  { destruct H as [H|[H|[H|H]]]; rewrite H; auto. }
  rewrite (POST_invalid expo now req w Hfalsy). split; [done|].
  simpl. rewrite <- (log_calls_nil w) at 2. apply newCalls_log_calls.
Qed.

Lemma C3_witness :
  Send.POST (stubExpo 100 []) 5%Z
    (Some (Send.mkRequest (Some "Hello") (Some EmptyString) None None None None))
    (audience 3)
  = (Error 400 "title and body are required", audience 3)
  ∧ newCalls (audience 3)
      (Send.POST (stubExpo 100 []) 5%Z
         (Some (Send.mkRequest (Some "Hello") (Some EmptyString) None None None None))
         (audience 3)).2 = [].
Proof.
  apply (C3_invalid_request_has_no_effect (stubExpo 100 []) 5%Z
           (Send.mkRequest (Some "Hello") (Some EmptyString) None None None None)
           (audience 3)).
  right. right. right. reflexivity.
Defined.

(** C4.  A broadcast with a valid title and body against an empty
    active-token snapshot answers with a 200 body carrying [success = false]
    and [sent = 0]; the only call it makes is the snapshot read, so the
    gateway is not contacted and no NotificationLog row is written. *)
Theorem C4_empty_audience_short_circuits expo now req w :
  truthy (Send.title req) = true → truthy (Send.body req) = true →
  activeTokens w = [] →
  let run := Send.POST expo now (Some req) w in
  (∃ b, run.1 = Ok b ∧ Send.success b = false ∧ Send.sent b = 0)
  ∧ newCalls w run.2 = [PushToken_findMany_active]
  ∧ gatewayCalls (newCalls w run.2) = []
  ∧ logWrites (newCalls w run.2) = []
  ∧ notificationLogs run.2 = notificationLogs w
  ∧ pushTokens run.2 = pushTokens w.
Proof.
  intros Ht Hb Hnil run. subst run.
  rewrite (POST_empty expo now req w Ht Hb Hnil). cbn [fst snd].
  rewrite newCalls_log_calls.
  split; [by eexists|]. done.
Qed.

Lemma C4_witness :
  let run := Send.POST (stubExpo 100 []) 5%Z (Some hello) emptyWorld in
  (∃ b, run.1 = Ok b ∧ Send.success b = false ∧ Send.sent b = 0)
  ∧ newCalls emptyWorld run.2 = [PushToken_findMany_active]
  ∧ gatewayCalls (newCalls emptyWorld run.2) = []
  ∧ logWrites (newCalls emptyWorld run.2) = []
  ∧ notificationLogs run.2 = notificationLogs emptyWorld
  ∧ pushTokens run.2 = pushTokens emptyWorld.
Proof.
  apply (C4_empty_audience_short_circuits (stubExpo 100 []) 5%Z hello emptyWorld);
    reflexivity.
Defined.













(** C6 (as stated, refuted).  One active token, no batch fails: the body of
    the response has no [errors] member at all, where the specification wants an
    empty list. *)
Lemma C6_counterexample :
  let run := Send.POST (stubExpo 100 []) 5%Z (Some hello) (audience 1) in
  errorsOf (outcomesOf (stubExpo 100 []) hello (audience 1)) = []
  ∧ run.1 = Ok (Send.mkResult true "Sent 1 notifications" 1
                  (Some [TicketOk "ExponentPushToken[0]"]) None)
  ∧ ¬ (∃ b, run.1 = Ok b ∧ Send.errors b = Some []).
Proof.
  split; [reflexivity|]. split; [reflexivity|].
  intros (b & Hb & Herr). vm_compute in Hb. inversion Hb; subst b.
  discriminate Herr.
Qed.

(** C6 (amended).  A broadcast with a valid title and body against a
    non-empty active-token snapshot answers, whatever the batch outcomes,
    with [success = true], the number of messages built, the tickets of all
    batches that succeeded, and the batch-level errors; the [errors] member
    is absent when no batch failed and is the non-empty error list
    otherwise. *)
Theorem C6_aggregate_result expo now req w :
  truthy (Send.title req) = true → truthy (Send.body req) = true →
  activeTokens w ≠ [] →
  ∃ b, (Send.POST expo now (Some req) w).1 = Ok b
       ∧ Send.success b = true
       ∧ Send.sent b = length (messagesOf expo req w)
       ∧ Send.tickets b = Some (ticketsOf (outcomesOf expo req w))
       ∧ (errorsOf (outcomesOf expo req w) = [] → Send.errors b = None)
       ∧ (errorsOf (outcomesOf expo req w) ≠ [] →
          Send.errors b = Some (errorsOf (outcomesOf expo req w))).
Proof.
  intros Ht Hb Hne. rewrite (POST_run expo now req w Ht Hb Hne). cbn [fst].
  eexists. split; [reflexivity|]. cbn [Send.success Send.sent Send.tickets Send.errors].
  do 3 (split; [reflexivity|]).
  destruct (errorsOf (outcomesOf expo req w)) as [|e errs]; simpl; split; done.
Qed.

Lemma C6_witness :
  ∃ b, (Send.POST (stubExpo 2 [2]) 5%Z (Some hello) (audience 5)).1 = Ok b
       ∧ Send.success b = true
       ∧ Send.sent b = 5
       ∧ Send.errors b = Some ["network failure"].
Proof.
  destruct (C6_aggregate_result (stubExpo 2 [2]) 5%Z hello (audience 5)
              eq_refl eq_refl ltac:(discriminate))
    as (b & Hrun & Hsuccess & Hsent & _ & _ & Herrors).
  exists b. split; [exact Hrun|]. split; [exact Hsuccess|].
  split; [exact Hsent|]. apply Herrors. discriminate.
Defined.

(** C1 (the code at the failing input).  Two active tokens, the second with
    a malformed address: the malformed one is left out of the one message
    sent and of [sent], and its active flag stays; but a NotificationLog
    row with status [sent] is written for it and the bulk last-used update
    covers it. *)
Theorem C1_malformed_token_is_logged_and_touched :
  let run := Send.POST (stubExpo 100 []) 5%Z (Some hello) mixedAudience in
  isExpoPushToken (stubExpo 100 []) "not-a-push-token[1]" = false
  ∧ ExpoPushMessage.to <$> mjoin (gatewayCalls (trace run.2))
    = ["ExponentPushToken[0]"]
  ∧ (∃ b, run.1 = Ok b ∧ Send.sent b = 1)
  ∧ PushToken.isActive <$> pushTokens run.2 = [true; true]
  ∧ logWrites (trace run.2) = ["tok0"; "tok1"]
  ∧ (λ row, (NotificationLog.tokenId row, NotificationLog.status row))
      <$> notificationLogs run.2
    = [(Some "tok0", "sent"); (Some "tok1", "sent")]
  ∧ lastUsedUpdates (trace run.2) = [["tok0"; "tok1"]]
  ∧ (λ r, (PushToken.id r, PushToken.lastUsedAt r)) <$> pushTokens run.2
    = [("tok0", 5%Z); ("tok1", 5%Z)].
Proof.
  repeat split; try reflexivity. eexists. split; reflexivity.
Qed.

(** The same for every broadcast: the log rows and the bulk last-used
    update range over the whole active snapshot, the messages over the send
    set only. *)
Lemma broadcast_covers_snapshot expo now req w :
  truthy (Send.title req) = true → truthy (Send.body req) = true →
  activeTokens w ≠ [] →
  let calls := newCalls w (Send.POST expo now (Some req) w).2 in
  ExpoPushMessage.to <$> mjoin (gatewayCalls calls)
  = PushToken.token <$> sendSet expo w
  ∧ logWrites calls = PushToken.id <$> activeTokens w
  ∧ lastUsedUpdates calls = [PushToken.id <$> activeTokens w].
Proof.
  intros Ht Hb Hne calls. subst calls.
  rewrite (POST_run expo now req w Ht Hb Hne). cbn [snd].
  rewrite gatewayCalls_afterBroadcast, logWrites_afterBroadcast,
    lastUsedUpdates_afterBroadcast, chunks_concat.
  split; [|done]. unfold messagesOf. rewrite <- list_fmap_compose. done.
Qed.

(** An active token whose address fails the format check, in any
    broadcast: no message is addressed to it, yet its identifier is among
    the log writes and in the bulk last-used update. *)
Lemma malformed_token_is_logged_and_touched expo now req w t :
  truthy (Send.title req) = true → truthy (Send.body req) = true →
  t ∈ activeTokens w →
  isExpoPushToken expo (PushToken.token t) = false →
  let calls := newCalls w (Send.POST expo now (Some req) w).2 in
  (PushToken.token t ∉ ExpoPushMessage.to <$> mjoin (gatewayCalls calls))
  ∧ PushToken.id t ∈ logWrites calls
  ∧ ∃ ids, lastUsedUpdates calls = [ids] ∧ PushToken.id t ∈ ids.
Proof.
  intros Ht Hb Hin Hbad calls.
  assert (activeTokens w ≠ []) as Hne.
  { intros Hnil. rewrite Hnil in Hin. by apply elem_of_nil in Hin. }
  destruct (broadcast_covers_snapshot expo now req w Ht Hb Hne)
    as (Hto & Hlogs & Hupd).
  fold calls in Hto, Hlogs, Hupd. rewrite Hto, Hlogs, Hupd.
  split; [|split; [by apply list_elem_of_fmap_2|]].
  - intros Hsent. apply list_elem_of_fmap in Hsent as (r & Htok & Hr).
    unfold sendSet in Hr. apply list_elem_of_filter in Hr as [Hvalid _].
    rewrite <- Htok, Hbad in Hvalid. done.
  - eexists. split; [reflexivity|]. by apply list_elem_of_fmap_2.
Qed.


(** ** The token table under the handlers *)

Lemma sameKeys_refl rows : sameKeys rows rows.
Proof. induction rows; constructor; done. Qed.

Lemma sameKeys_fmap (f : PushToken.t → PushToken.t) rows :
  (∀ r, PushToken.id (f r) = PushToken.id r
        ∧ PushToken.token (f r) = PushToken.token r) →
  sameKeys rows (f <$> rows).
Proof. intros Hf. induction rows; constructor; done. Qed.

Lemma sameKeys_updateWhere e token (f : PushToken.t → PushToken.t) rows :
  (∀ r, PushToken.id (f r) = PushToken.id r
        ∧ PushToken.token (f r) = PushToken.token r) →
  sameKeys rows (prisma_pushToken.updateWhere e token f rows).
Proof.
  intros Hf. induction rows as [|r rows IH]; simpl; [constructor|].
  case_decide; constructor; try done. apply sameKeys_refl.
Qed.

Lemma sameKeys_length rows rows' : sameKeys rows rows' → length rows' = length rows.
Proof. intros H. symmetry. by eapply Forall2_length. Qed.

Lemma carries_token e token r r' :
  PushToken.token r' = PushToken.token r →
  prisma_pushToken.carries e token r' ↔ prisma_pushToken.carries e token r.
Proof. unfold prisma_pushToken.carries. by intros ->. Qed.


Lemma sameKeys_find_None e token rows rows' :
  sameKeys rows rows' →
  list_find (prisma_pushToken.carries e token) rows = None →
  list_find (prisma_pushToken.carries e token) rows' = None.
Proof.
  intros H. rewrite !list_find_None. intros Hall.
  induction H as [|r r' rows rows' [_ Htok] _ IH]; [constructor|].
  apply Forall_cons in Hall as [Hr Hall].
  constructor; [by rewrite (carries_token e token r r' Htok)|by apply IH].
Qed.

Lemma sameKeys_count e token rows rows' :
  sameKeys rows rows' →
  length (filter (prisma_pushToken.carries e token) rows')
  = length (filter (prisma_pushToken.carries e token) rows).
Proof.
  induction 1 as [|r r' rows rows' [Hid Htok] _ IH]; [done|].
  rewrite !filter_cons.
  pose proof (carries_token e token r r' Htok) as Hc.
  destruct (decide (prisma_pushToken.carries e token r)) as [Hr|Hr].
  - rewrite decide_True by by apply Hc. simpl. by rewrite IH.
  - by rewrite decide_False by by rewrite Hc.
Qed.

Lemma updateWhere_find e token (f : PushToken.t → PushToken.t) rows i r :
  PushToken.token (f r) = PushToken.token r →
  list_find (prisma_pushToken.carries e token) rows = Some (i, r) →
  list_find (prisma_pushToken.carries e token)
            (prisma_pushToken.updateWhere e token f rows) = Some (i, f r).
Proof.
  intros Hf. revert i. induction rows as [|r0 rows IH]; intros i Hfind; [done|].
  cbn [list_find prisma_pushToken.updateWhere] in *.
  destruct (decide (prisma_pushToken.carries e token r0)) as [Hr0|Hr0].
  - inversion Hfind; subst. cbn [list_find].
    rewrite decide_True by by apply (carries_token e token r (f r) Hf). done.
  - cbn [list_find]. rewrite decide_False by done.
    destruct (list_find _ rows) as [[j x]|] eqn:Hrows; [|done].
    simpl in Hfind. inversion Hfind; subst.
    by rewrite (IH j eq_refl).
Qed.

Lemma touch_keys ids now r :
  PushToken.id (prisma_pushToken.touch ids now r) = PushToken.id r
  ∧ PushToken.token (prisma_pushToken.touch ids now r) = PushToken.token r.
Proof. unfold prisma_pushToken.touch. by destruct (decide _). Qed.

Lemma deactivate_keys e now token r :
  PushToken.id (prisma_pushToken.deactivate e now token r) = PushToken.id r
  ∧ PushToken.token (prisma_pushToken.deactivate e now token r)
    = PushToken.token r.
Proof. unfold prisma_pushToken.deactivate. by destruct (decide _). Qed.

Lemma rowOf_None t w :
  rowOf t w = None
  ↔ Forall (λ r, ¬ prisma_pushToken.carries (engine w) t r) (pushTokens w).
Proof. unfold rowOf. by rewrite fmap_None, list_find_None. Qed.

Lemma rowOf_None_absent t w :
  rowOf t w = None → t ∉ PushToken.token <$> pushTokens w.
Proof.
  rewrite rowOf_None, Forall_forall. intros H Hin.
  apply list_elem_of_fmap in Hin as (r & -> & Hr). by apply (H r).
Qed.


Section Registration.
Variable expo : Expo.

Lemma register_existing now body t r w :
  RegisterToken.token body = Some t →
  isExpoPushToken expo t = true →
  rowOf t w = Some r →
  platformFits body w = true →
  RegisterToken.POST expo now (Some body) w
  = (Ok (RegisterToken.mkResult true "Token updated successfully"
           (PushToken.id r)),
     set_pushTokens
       (prisma_pushToken.updateWhere (engine w) t
          (prisma_pushToken.updateData now (RegisterToken.platform body)
             (RegisterToken.deviceInfo body))
          (pushTokens w))
       (log_calls [PushToken_findUnique t; PushToken_update t] w)).
Proof.
  intros Htok Hvalid Hrow Hfits. unfold RegisterToken.POST.
  rewrite Htok, Hvalid. cbn [negb].
  unfold bind at 1. unfold prisma_pushToken.findUnique, bind, call.
  cbn [pushTokens engine log_calls]. fold (rowOf t w). rewrite Hrow.
  unfold prisma_pushToken.update, bind, call. cbn [pushTokens engine log_calls].
  unfold platformFits in Hfits. rewrite Hfits.
  unfold rowOf in Hrow.
  destruct (list_find _ (pushTokens w)) as [[i r']|] eqn:Hfind; [|done].
  simpl in Hrow. inversion Hrow; subst r'.
  rewrite (updateWhere_find (engine w) t
             (prisma_pushToken.updateData now (RegisterToken.platform body)
                (RegisterToken.deviceInfo body)) _ i r eq_refl Hfind).
  unfold ret, set_pushTokens, log_calls. simpl.
  by rewrite <- app_assoc.
Qed.

Lemma register_existing_refused now body t r w :
  RegisterToken.token body = Some t →
  isExpoPushToken expo t = true →
  rowOf t w = Some r →
  platformFits body w = false →
  RegisterToken.POST expo now (Some body) w
  = (Error 500 "Failed to register token",
     log_calls [PushToken_findUnique t; PushToken_update t] w).
Proof.
  intros Htok Hvalid Hrow Hfits. unfold RegisterToken.POST.
  rewrite Htok, Hvalid. cbn [negb].
  unfold bind at 1. unfold prisma_pushToken.findUnique, bind, call.
  cbn [pushTokens engine log_calls]. fold (rowOf t w). rewrite Hrow.
  unfold prisma_pushToken.update, bind, call. cbn [pushTokens engine log_calls].
  unfold platformFits in Hfits. rewrite Hfits.
  unfold ret, log_calls. simpl. by rewrite <- app_assoc.
Qed.

Lemma register_new now body t p w :
  RegisterToken.token body = Some t →
  isExpoPushToken expo t = true →
  RegisterToken.platform body = Some p →
  rowOf t w = None →
  varchar (engine w) t = true → varchar (engine w) p = true →
  RegisterToken.POST expo now (Some body) w
  = (Ok (RegisterToken.mkResult true "Token registered successfully"
           ("c" +:+ pretty (nextId w))),
     mkWorld (engine w)
       (pushTokens w
          ++ [PushToken.mk ("c" +:+ pretty (nextId w)) t p
                (RegisterToken.deviceInfo body) true now now now])
       (notificationLogs w) (errorLogs w) (S (nextId w))
       (trace w ++ [PushToken_findUnique t; PushToken_create t])).
Proof.
  intros Htok Hvalid Hp Hrow Ht Hplat. unfold RegisterToken.POST.
  rewrite Htok, Hvalid, Hp. cbn [negb].
  unfold bind at 1. unfold prisma_pushToken.findUnique, bind, call.
  cbn [pushTokens engine log_calls]. fold (rowOf t w). rewrite Hrow.
  unfold prisma_pushToken.create, bind, call.
  cbn [pushTokens engine log_calls]. rewrite Ht, Hplat.
  rewrite bool_decide_eq_true_2 by by apply rowOf_None.
  unfold freshId, ret, set_pushTokens, set_nextId, log_calls. simpl.
  by rewrite <- app_assoc.
Qed.

Lemma register_new_refused now body t p w :
  RegisterToken.token body = Some t →
  isExpoPushToken expo t = true →
  RegisterToken.platform body = Some p →
  rowOf t w = None →
  varchar (engine w) t && varchar (engine w) p = false →
  RegisterToken.POST expo now (Some body) w
  = (Error 500 "Failed to register token",
     log_calls [PushToken_findUnique t; PushToken_create t] w).
Proof.
  intros Htok Hvalid Hp Hrow Hfits. unfold RegisterToken.POST.
  rewrite Htok, Hvalid, Hp. cbn [negb].
  unfold bind at 1. unfold prisma_pushToken.findUnique, bind, call.
  cbn [pushTokens engine log_calls]. fold (rowOf t w). rewrite Hrow.
  unfold prisma_pushToken.create, bind, call.
  cbn [pushTokens engine log_calls]. rewrite Hfits.
  unfold ret, log_calls. simpl. by rewrite <- app_assoc.
Qed.

Lemma register_without_platform now body t w :
  RegisterToken.token body = Some t →
  isExpoPushToken expo t = true →
  RegisterToken.platform body = None →
  rowOf t w = None →
  RegisterToken.POST expo now (Some body) w
  = (Error 500 "Failed to register token",
     log_calls [PushToken_findUnique t] w).
Proof.
  intros Htok Hvalid Hp Hrow. unfold RegisterToken.POST.
  rewrite Htok, Hvalid, Hp. cbn [negb].
  unfold bind, prisma_pushToken.findUnique, bind, call.
  cbn [pushTokens engine log_calls]. fold (rowOf t w). by rewrite Hrow.
Qed.

(** What any request does to the token table: rows keep their identifier
    and token string, and a row is added only for a token string that no
    row carried; the engine is the same. *)
Lemma serve_rows req w :
  ∃ rows' extra,
    pushTokens (serve expo req w) = rows' ++ extra
    ∧ sameKeys (pushTokens w) rows'
    ∧ length extra ≤ 1
    ∧ Forall (λ r, rowOf (PushToken.token r) w = None
                   ∧ isExpoPushToken expo (PushToken.token r) = true) extra.
Proof.
  assert (∀ rows', sameKeys (pushTokens w) rows' →
            ∃ rows'' extra, rows' = rows'' ++ extra
              ∧ sameKeys (pushTokens w) rows''
              ∧ length extra ≤ 1
              ∧ Forall (λ r, rowOf (PushToken.token r) w = None
                             ∧ isExpoPushToken expo (PushToken.token r) = true)
                       extra) as Hsame.
  { intros rows' H. exists rows', []. rewrite app_nil_r. simpl.
    repeat split; [done|lia|constructor]. }
  destruct req as [now [req|]|now [body|]|now [body|]|now [body|]|sp];
    cbn [serve]; try (apply Hsame, sameKeys_refl).
  - (* broadcast *)
    destruct (truthy (Send.title req)) eqn:Ht;
      [|rewrite (POST_invalid expo now req w (or_introl Ht));
        apply Hsame, sameKeys_refl].
    destruct (truthy (Send.body req)) eqn:Hb;
      [|rewrite (POST_invalid expo now req w (or_intror Hb));
        apply Hsame, sameKeys_refl].
    destruct (decide (activeTokens w = [])) as [Hnil|Hne].
    + rewrite (POST_empty expo now req w Ht Hb Hnil).
      apply Hsame, sameKeys_refl.
    + rewrite (POST_run expo now req w Ht Hb Hne). apply Hsame.
      cbn [snd afterBroadcast pushTokens].
      apply sameKeys_fmap, touch_keys.
  - (* register *)
    destruct (RegisterToken.token body) as [t|] eqn:Htok;
      [|unfold RegisterToken.POST; rewrite Htok; apply Hsame, sameKeys_refl].
    destruct (isExpoPushToken expo t) eqn:Hvalid;
      [|unfold RegisterToken.POST; rewrite Htok, Hvalid;
        apply Hsame, sameKeys_refl].
    destruct (rowOf t w) as [r|] eqn:Hrow.
    + destruct (platformFits body w) eqn:Hfits.
      * rewrite (register_existing now body t r w Htok Hvalid Hrow Hfits).
        apply Hsame. cbn [snd set_pushTokens pushTokens].
        by apply sameKeys_updateWhere.
      * rewrite (register_existing_refused now body t r w Htok Hvalid Hrow
                   Hfits).
        apply Hsame, sameKeys_refl.
    + destruct (RegisterToken.platform body) as [p|] eqn:Hp.
      * destruct (varchar (engine w) t && varchar (engine w) p) eqn:Hfits.
        -- apply andb_true_iff in Hfits as [Hft Hfp].
           rewrite (register_new now body t p w Htok Hvalid Hp Hrow Hft Hfp).
           cbn [snd pushTokens]. eexists _, _. split; [done|].
           split; [apply sameKeys_refl|]. split; [simpl; lia|].
           by repeat constructor.
        -- rewrite (register_new_refused now body t p w Htok Hvalid Hp Hrow
                      Hfits).
           apply Hsame, sameKeys_refl.
      * rewrite (register_without_platform now body t w Htok Hvalid Hp Hrow).
        apply Hsame, sameKeys_refl.
  - (* unregister *)
    unfold UnregisterToken.POST.
    destruct (negb (truthy (UnregisterToken.expoPushToken body)));
      [apply Hsame, sameKeys_refl|].
    apply Hsame. cbn. apply sameKeys_fmap, deactivate_keys.
  - (* error intake *)
    unfold ErrorLogs.POST.
    destruct (negb (truthy (ErrorLogs.errorType body))
              || negb (truthy (ErrorLogs.message body)));
      [apply Hsame, sameKeys_refl|].
    unfold bind, prisma_errorLog.create, bind, call.
    cbn [engine log_calls]. destruct (prisma_errorLog.fits _ _ _ _ _ _ _);
      apply Hsame, sameKeys_refl.
  - (* error query *)
    unfold ErrorLogs.GET. destruct (ErrorLogs.limitOf sp) as [limit|];
      [|apply Hsame, sameKeys_refl].
    unfold bind, prisma_errorLog.findMany, bind, call.
    cbn [engine log_calls errorLogs]. destruct (_ <$> _);
      apply Hsame, sameKeys_refl.
Qed.

Lemma serve_engine req w : engine (serve expo req w) = engine w.
Proof.
  destruct req as [now [req|]|now [body|]|now [body|]|now [body|]|sp];
    cbn [serve]; try done.
  - destruct (truthy (Send.title req)) eqn:Ht;
      [|by rewrite (POST_invalid expo now req w (or_introl Ht))].
    destruct (truthy (Send.body req)) eqn:Hb;
      [|by rewrite (POST_invalid expo now req w (or_intror Hb))].
    destruct (decide (activeTokens w = [])) as [Hnil|Hne].
    + by rewrite (POST_empty expo now req w Ht Hb Hnil).
    + by rewrite (POST_run expo now req w Ht Hb Hne).
  - destruct (RegisterToken.token body) as [t|] eqn:Htok;
      [|unfold RegisterToken.POST; by rewrite Htok].
    destruct (isExpoPushToken expo t) eqn:Hvalid;
      [|unfold RegisterToken.POST; by rewrite Htok, Hvalid].
    destruct (rowOf t w) as [r|] eqn:Hrow.
    + destruct (platformFits body w) eqn:Hfits.
      * by rewrite (register_existing now body t r w Htok Hvalid Hrow Hfits).
      * by rewrite (register_existing_refused now body t r w Htok Hvalid Hrow
                      Hfits).
    + destruct (RegisterToken.platform body) as [p|] eqn:Hp.
      * destruct (varchar (engine w) t && varchar (engine w) p) eqn:Hfits.
        -- apply andb_true_iff in Hfits as [Hft Hfp].
           by rewrite (register_new now body t p w Htok Hvalid Hp Hrow Hft Hfp).
        -- by rewrite (register_new_refused now body t p w Htok Hvalid Hp Hrow
                         Hfits).
      * by rewrite (register_without_platform now body t w Htok Hvalid Hp Hrow).
  - unfold UnregisterToken.POST.
    by destruct (negb (truthy (UnregisterToken.expoPushToken body))).
  - unfold ErrorLogs.POST.
    destruct (negb (truthy (ErrorLogs.errorType body))
              || negb (truthy (ErrorLogs.message body))); [done|].
    unfold bind, prisma_errorLog.create, bind, call.
    cbn [engine log_calls]. by destruct (prisma_errorLog.fits _ _ _ _ _ _ _).
  - unfold ErrorLogs.GET. destruct (ErrorLogs.limitOf sp) as [limit|]; [|done].
    unfold bind, prisma_errorLog.findMany, bind, call.
    cbn [engine log_calls errorLogs]. by destruct (_ <$> _).
Qed.




Lemma sameKeys_tokens rows rows' :
  sameKeys rows rows' → PushToken.token <$> rows' = PushToken.token <$> rows.
Proof.
  induction 1 as [|r r' rows rows' [_ Htok] _ IH]; [done|].
  by rewrite !fmap_cons, Htok, IH.
Qed.

(** The unique index on the token string and the address-format check of
    registration are invariants of the service. *)
Lemma serve_keeps_tokens_unique req w :
  NoDup (PushToken.token <$> pushTokens w) →
  NoDup (PushToken.token <$> pushTokens (serve expo req w)).
Proof.
  intros Hnd.
  destruct (serve_rows req w) as (rows' & extra & -> & Hsame & Hlen & Hextra).
  rewrite fmap_app, (sameKeys_tokens _ _ Hsame).
  destruct extra as [|r [|r' extra]]; [by rewrite app_nil_r| |simpl in Hlen; lia].
  apply Forall_cons in Hextra as [[Hrow _] _].
  apply NoDup_app. split; [done|]. split; [|apply NoDup_singleton].
  intros t Ht Hin. apply list_elem_of_singleton in Hin as ->.
  by apply rowOf_None_absent in Hrow.
Qed.

(** The same under the collation of the engine, as the index reads it. *)
Lemma serve_keeps_unique_index req w :
  uniqueTokens w → uniqueTokens (serve expo req w).
Proof.
  unfold uniqueTokens. intros Hnd. rewrite serve_engine.
  destruct (serve_rows req w) as (rows' & extra & -> & Hsame & Hlen & Hextra).
  rewrite fmap_app.
  assert (collation (engine w) ∘ PushToken.token <$> rows'
          = collation (engine w) ∘ PushToken.token <$> pushTokens w) as ->.
  { by rewrite !list_fmap_compose, (sameKeys_tokens _ _ Hsame). }
  destruct extra as [|r [|r' extra]]; [by rewrite app_nil_r| |simpl in Hlen; lia].
  apply Forall_cons in Hextra as [[Hrow _] _].
  apply NoDup_app. split; [done|]. split; [|apply NoDup_singleton].
  intros k Hk Hin. apply list_elem_of_singleton in Hin as ->.
  apply list_elem_of_fmap in Hk as (r0 & Hk & Hr0).
  apply rowOf_None in Hrow. rewrite Forall_forall in Hrow.
  apply (Hrow r0 Hr0). unfold prisma_pushToken.carries. cbn in Hk. congruence.
Qed.

Lemma serveAll_keeps_unique_index reqs w :
  uniqueTokens w → uniqueTokens (serveAll expo reqs w).
Proof.
  revert w. induction reqs as [|req reqs IH]; intros w Hnd; [done|].
  cbn [serveAll foldl]. apply IH. by apply serve_keeps_unique_index.
Qed.

Lemma serve_keeps_addresses_well_formed req w :
  Forall (λ r, isExpoPushToken expo (PushToken.token r) = true) (pushTokens w) →
  Forall (λ r, isExpoPushToken expo (PushToken.token r) = true)
         (pushTokens (serve expo req w)).
Proof.
  intros Hall.
  destruct (serve_rows req w) as (rows' & extra & -> & Hsame & _ & Hextra).
  apply Forall_app. split.
  - clear Hextra. induction Hsame as [|r r' rows rows' [_ Htok] _ IH];
      [constructor|].
    apply Forall_cons in Hall as [Hr Hall].
    constructor; [congruence|by apply IH].
  - eapply Forall_impl; [exact Hextra|]. by intros r [_ ?].
Qed.

End Registration.

(** ** Specified properties of registration and unregistration *)



Lemma tokenCount_unique t r w :
  uniqueTokens w →
  rowOf t w = Some r →
  tokenCount t w = 1.
Proof.
  unfold uniqueTokens, rowOf, tokenCount. intros Hnd Hrow.
  destruct (list_find _ (pushTokens w)) as [[i r0]|] eqn:Hfind; [|done].
  clear Hrow. revert Hnd i Hfind.
  generalize (engine w). intros e.
  induction (pushTokens w) as [|r1 rows IH]; intros Hnd i Hfind; [done|].
  rewrite fmap_cons in Hnd. apply NoDup_cons in Hnd as [Hnotin Hnd].
  cbn [list_find] in Hfind. rewrite filter_cons.
  destruct (decide (prisma_pushToken.carries e t r1)) as [Heq|Hne].
  - assert (filter (prisma_pushToken.carries e t) rows = []) as ->; [|done].
    clear IH Hfind Hnd. induction rows as [|r2 rows IH]; [done|].
    rewrite fmap_cons in Hnotin.
    apply not_elem_of_cons in Hnotin as [Hr2 Hnotin].
    rewrite filter_cons_False; [by apply IH|].
    unfold prisma_pushToken.carries in *. cbn in Hr2. congruence.
  - destruct (list_find _ rows) as [[j x]|] eqn:Hrows; [|done].
    simpl in Hfind. inversion Hfind; subst. by apply (IH Hnd j).
Qed.

Lemma tokenCount_absent t w : rowOf t w = None → tokenCount t w = 0.
Proof.
  unfold rowOf, tokenCount. intros Hrow.
  destruct (list_find _ (pushTokens w)) as [[i r0]|] eqn:Hfind; [done|].
  apply list_find_None in Hfind.
  induction Hfind as [|r rows Hr _ IH]; [done|].
  by rewrite filter_cons_False.
Qed.

Lemma unregister_run now t w :
  t ≠ "" →
  UnregisterToken.POST now (Some (UnregisterToken.mkBody (Some t))) w
  = (Ok (UnregisterToken.mkResult true "Token unregistered successfully"
           (tokenCount t w)),
     set_pushTokens
       (prisma_pushToken.deactivate (engine w) now t <$> pushTokens w)
       (log_calls [PushToken_updateMany_isActive_false t] w)).
Proof.
  intros Hne. unfold UnregisterToken.POST.
  cbn [UnregisterToken.expoPushToken truthy].
  assert (String.eqb t "" = false) as -> by by apply String.eqb_neq.
  reflexivity.
Qed.




(** The scenario of C7 run: the unregistration in between does switch the
    row off, and the second registration switches it on again; where the
    engine folds capitals, a registration in another spelling finds the
    same row and leaves the stored spelling. *)
Example reregistration_after_unregistration :
  let body := RegisterToken.mkBody (Some "ExponentPushToken[abc]") (Some "ios") None in
  let other := RegisterToken.mkBody (Some "ExponentPushToken[ABC]") (Some "ios") None in
  let gone := UnregisterToken.mkBody (Some "ExponentPushToken[abc]") in
  let first := RegisterToken.POST (stubExpo 100 []) 1%Z (Some body) emptyWorld in
  let w2 := serveAll (stubExpo 100 []) [UnregisterRequest 2%Z (Some gone)] first.2 in
  let second := RegisterToken.POST (stubExpo 100 []) 3%Z (Some other) w2 in
  (λ r, (PushToken.id r, PushToken.isActive r)) <$> pushTokens first.2
  = [("c0", true)]
  ∧ (λ r, (PushToken.id r, PushToken.isActive r)) <$> pushTokens w2
    = [("c0", false)]
  ∧ (λ r, (PushToken.id r, PushToken.token r, PushToken.isActive r))
      <$> pushTokens second.2
    = [("c0", "ExponentPushToken[abc]", true)]
  ∧ second.1 = Ok (RegisterToken.mkResult true "Token updated successfully" "c0").
Proof. repeat split; reflexivity. Qed.

(** C8 (as stated, refuted).  The empty token string matches no stored
    row, yet the call is answered with the 400 error, not with
    [success: true], [count: 0]. *)
Lemma C8_counterexample :
  tokenCount "" (audience 2) = 0
  ∧ UnregisterToken.POST 5%Z (Some (UnregisterToken.mkBody (Some ""))) (audience 2)
    = (Error 400 "expoPushToken is required", audience 2).
Proof. split; reflexivity. Qed.

(** C8 (amended).  An unregister call whose token string is non-empty and
    matches no stored row, as the engine compares them, is answered with
    [success: true], [count: 0]; its one call to the token store changes
    no row. *)
Theorem C8_unknown_token_is_a_noop now t w :
  t ≠ "" →
  (∀ r, r ∈ pushTokens w →
        collation (engine w) (PushToken.token r) ≠ collation (engine w) t) →
  let run := UnregisterToken.POST now (Some (UnregisterToken.mkBody (Some t))) w in
  run.1 = Ok (UnregisterToken.mkResult true "Token unregistered successfully" 0)
  ∧ pushTokens run.2 = pushTokens w
  ∧ run.2 = log_calls [PushToken_updateMany_isActive_false t] w.
Proof.
  intros Hne Hnone run. subst run. rewrite (unregister_run now t w Hne).
  cbn [fst snd].
  assert (rowOf t w = None) as Hrow.
  { apply rowOf_None, Forall_forall. intros r Hr. by apply Hnone. }
  rewrite (tokenCount_absent t w Hrow).
  assert (prisma_pushToken.deactivate (engine w) now t <$> pushTokens w
          = pushTokens w) as ->.
  { revert Hnone. generalize (engine w). intros e Hnone.
    induction (pushTokens w) as [|r rows IH]; [done|].
    rewrite fmap_cons, IH by (intros r' Hr'; apply Hnone; by right).
    unfold prisma_pushToken.deactivate.
    rewrite decide_False by (apply Hnone; by left). done. }
  destruct w; done.
Qed.

Lemma C8_witness :
  let run := UnregisterToken.POST 5%Z
               (Some (UnregisterToken.mkBody (Some "ExponentPushToken[zzz]")))
               (audience 2) in
  run.1 = Ok (UnregisterToken.mkResult true "Token unregistered successfully" 0)
  ∧ pushTokens run.2 = pushTokens (audience 2)
  ∧ run.2 = log_calls [PushToken_updateMany_isActive_false "ExponentPushToken[zzz]"]
              (audience 2).
Proof.
  apply (C8_unknown_token_is_a_noop 5%Z "ExponentPushToken[zzz]" (audience 2)).
  - discriminate.
  - intros r Hr. vm_compute in Hr.
    apply elem_of_cons in Hr as [->|Hr]; [vm_compute; discriminate|].
    apply elem_of_cons in Hr as [->|Hr]; [vm_compute; discriminate|].
    by apply elem_of_nil in Hr.
Defined.

(** The engine decides what matches: where it folds capitals, an
    unregister call in another spelling switches the stored row off. *)
Example unregistration_in_another_spelling :
  let first := RegisterToken.POST (stubExpo 100 []) 1%Z
                 (Some (RegisterToken.mkBody (Some "ExponentPushToken[abc]")
                          (Some "ios") None)) emptyWorld in
  let run := UnregisterToken.POST 2%Z
               (Some (UnregisterToken.mkBody (Some "ExponentPushToken[ABC]")))
               first.2 in
  run.1 = Ok (UnregisterToken.mkResult true "Token unregistered successfully" 1)
  ∧ (λ r, (PushToken.token r, PushToken.isActive r)) <$> pushTokens run.2
    = [("ExponentPushToken[abc]", false)].
Proof. split; reflexivity. Qed.

(** ** Error intake and its read path *)

Lemma truthy_spec v : truthy v = true ↔ ∃ s, v = Some s ∧ s ≠ "".
Proof.
  destruct v as [s|]; simpl.
  - rewrite negb_true_iff, String.eqb_neq. split.
    + intros H. by exists s.
    + intros (s' & [= <-] & H). done.
  - split; [done|]. by intros (s & ? & _).
Qed.

Lemma intake_refused now body w :
  truthy (ErrorLogs.errorType body) = false
  ∨ truthy (ErrorLogs.message body) = false →
  ErrorLogs.POST now (Some body) w
  = (Error 400 "errorType and message are required", w).
Proof.
  intros H. unfold ErrorLogs.POST.
  destruct H as [-> | ->]; simpl; rewrite ?orb_true_r; done.
Qed.

Lemma intake_run now body w :
  truthy (ErrorLogs.errorType body) = true →
  truthy (ErrorLogs.message body) = true →
  storable body w = true →
  ErrorLogs.POST now (Some body) w
  = (Ok (ErrorLogs.mkPostResult true ("c" +:+ pretty (nextId w))),
     mkWorld (engine w) (pushTokens w) (notificationLogs w)
       (errorLogs w
          ++ [ErrorLog.mk ("c" +:+ pretty (nextId w))
                (or_null (ErrorLogs.tokenId body))
                (or_null (ErrorLogs.platform body))
                (default "" (ErrorLogs.errorType body))
                (default "" (ErrorLogs.message body))
                (or_null (ErrorLogs.stackTrace body))
                (json_or_null (ErrorLogs.context body))
                (or_null (ErrorLogs.appVersion body)) now])
       (S (nextId w)) (trace w ++ [ErrorLog_create])).
Proof.
  intros Hty Hmsg Hfits. unfold ErrorLogs.POST. rewrite Hty, Hmsg. cbn [negb orb].
  unfold bind, prisma_errorLog.create, bind, call.
  cbn [engine log_calls]. unfold storable in Hfits. rewrite Hfits.
  reflexivity.
Qed.

Lemma intake_unstorable now body w :
  truthy (ErrorLogs.errorType body) = true →
  truthy (ErrorLogs.message body) = true →
  storable body w = false →
  ErrorLogs.POST now (Some body) w
  = (Error 500 "Failed to log error", log_calls [ErrorLog_create] w).
Proof.
  intros Hty Hmsg Hfits. unfold ErrorLogs.POST. rewrite Hty, Hmsg. cbn [negb orb].
  unfold bind, prisma_errorLog.create, bind, call.
  cbn [engine log_calls]. unfold storable in Hfits. rewrite Hfits.
  reflexivity.
Qed.




Example intake_accepts :
  let run := ErrorLogs.POST 5%Z
               (Some (ErrorLogs.mkBody None (Some "") (Some "crash") (Some "boom")
                        None None None))
               sampleErrors in
  run.1 = Ok (ErrorLogs.mkPostResult true "c3")
  ∧ drop 3 (errorLogs run.2)
    = [ErrorLog.mk "c3" None None "crash" "boom" None None None 5%Z].
Proof. split; reflexivity. Qed.

Lemma Sorted_take {A} (R : relation A) (l : list A) n :
  Sorted R l → Sorted R (take n l).
Proof.
  intros H. revert n. induction H as [|x l Hl IH Hx]; intros [|n]; simpl;
    try constructor; [apply IH|].
  destruct Hx as [|y l' Hxy]; destruct n; simpl; by constructor.
Qed.

Instance newestFirst_total : Total prisma_errorLog.newestFirst.
Proof. intros a b. unfold prisma_errorLog.newestFirst. lia. Qed.

Instance newestFirst_transitive : Transitive prisma_errorLog.newestFirst.
Proof. intros a b c. unfold prisma_errorLog.newestFirst. lia. Qed.

Instance largestCountFirst_total : Total prisma_errorLog.largestCountFirst.
Proof. intros a b. unfold prisma_errorLog.largestCountFirst. lia. Qed.

(** The rows of a query in the order asked for. *)
Lemma ordered_rows e rows :
  let ordered := merge_sort prisma_errorLog.newestFirst
                   (merge_sort (byRank (errorLogOrder e)) rows) in
  ordered ≡ₚ rows ∧ StronglySorted prisma_errorLog.newestFirst ordered.
Proof.
  split.
  - by rewrite !merge_sort_Permutation.
  - apply (StronglySorted_merge_sort prisma_errorLog.newestFirst).
Qed.

(** A [take] that is not negative: the rows returned are the number asked
    for, or all there are, in the order asked for, and no row left out is
    newer than one returned. *)
Lemma takeRows_newest e n rows :
  (0 ≤ n)%Z →
  length (prisma_errorLog.takeRows e n rows) = Z.to_nat n `min` length rows
  ∧ Sorted prisma_errorLog.newestFirst (prisma_errorLog.takeRows e n rows)
  ∧ ∃ rest, prisma_errorLog.takeRows e n rows ++ rest ≡ₚ rows
            ∧ ∀ a c, a ∈ prisma_errorLog.takeRows e n rows → c ∈ rest →
                     (ErrorLog.createdAt c ≤ ErrorLog.createdAt a)%Z.
Proof.
  intros Hn. unfold prisma_errorLog.takeRows. rewrite decide_True by done.
  destruct (ordered_rows e rows) as [Hperm Hsorted]. cbv zeta in Hperm, Hsorted.
  set (ordered := merge_sort prisma_errorLog.newestFirst
                    (merge_sort (byRank (errorLogOrder e)) rows)) in *.
  split; [by rewrite length_take, (Permutation_length Hperm)|].
  split; [by apply Sorted_take, StronglySorted_Sorted|].
  exists (drop (Z.to_nat n) ordered). split; [by rewrite take_drop|].
  intros a c Ha Hc. rewrite <- (take_drop (Z.to_nat n) ordered) in Hsorted.
  apply (StronglySorted_app_1_elem_of _ _ _ a c Hsorted Ha Hc).
Qed.

(** The groups of the count-by-type: one per error type that the engine
    tells apart, spelled as a stored row spells it, with the number of all
    rows of the type; the counts add up to the number of rows. *)
Lemma groups_spec e rows :
  NoDup (collation e ∘ fst <$> prisma_errorLog.groups e rows)
  ∧ (∀ ty n, (ty, n) ∈ prisma_errorLog.groups e rows →
       (∃ r, r ∈ rows ∧ ErrorLog.errorType r = ty)
       ∧ n = length (filter (λ r, collation e (ErrorLog.errorType r)
                                  = collation e ty) rows)
       ∧ 0 < n)
  ∧ (∀ r, r ∈ rows →
       ∃ ty n, (ty, n) ∈ prisma_errorLog.groups e rows
               ∧ collation e ty = collation e (ErrorLog.errorType r))
  ∧ sum_list (snd <$> prisma_errorLog.groups e rows) = length rows.
Proof.
  apply (class_counts_spec (collation e) ErrorLog.errorType rows
           (merge_sort (byRank (errorTypeOrder e)) rows)).
  apply merge_sort_Permutation.
Qed.

Lemma GET_run sp limit w :
  ErrorLogs.limitOf sp = Some limit →
  prisma_errorLog.int32 limit →
  ErrorLogs.GET sp w
  = (Ok (ErrorLogs.mkGetResult true
           (prisma_errorLog.takeRows (engine w) limit
              (filter (λ r, prisma_errorLog.matches (engine w)
                              (ErrorLogs.whereOf sp) r)
                      (errorLogs w)))
           (ErrorLogs.mkStats
              (length (filter (λ r, prisma_errorLog.matches (engine w)
                                      (ErrorLogs.whereOf sp) r)
                              (errorLogs w)))
              ((λ et, ErrorLogs.mkErrorTypeCount et.1 et.2)
               <$> merge_sort prisma_errorLog.largestCountFirst
                     (prisma_errorLog.groups (engine w) (errorLogs w))))),
     log_calls [ErrorLog_findMany; ErrorLog_count; ErrorLog_groupBy] w).
Proof.
  intros Hlimit Hint. unfold ErrorLogs.GET. rewrite Hlimit.
  unfold bind at 1. unfold prisma_errorLog.findMany, bind, call.
  cbn [engine errorLogs log_calls]. rewrite decide_True by done.
  cbn [fmap option_fmap option_map].
  unfold bind, prisma_errorLog.count, prisma_errorLog.groupBy_errorType, bind,
    call, ret.
  cbn [fst snd engine errorLogs log_calls]. f_equal.
  unfold log_calls. cbn. by rewrite <- !app_assoc.
Qed.

Lemma where_field_spec (v : option string) (b : string → bool)
    (P : string → Prop) :
  (∀ s, b s ↔ P s) →
  Is_true (match or_null v with Some s => b s | None => true end)
  ↔ ∀ s, v = Some s → s ≠ "" → P s.
Proof.
  intros Hb. unfold or_null. destruct (truthy v) eqn:Hv.
  - apply truthy_spec in Hv as (s & -> & Hs). rewrite Hb. split.
    + by intros HP s' [= <-] _.
    + intros H. by apply H.
  - split; [|done]. intros _ s -> Hs.
    assert (truthy (Some s) = true) as Ht by (apply truthy_spec; by exists s).
    congruence.
Qed.

Lemma matches_spec e sp r :
  prisma_errorLog.matches e (ErrorLogs.whereOf sp) r ↔ passes e sp r.
Proof.
  unfold prisma_errorLog.matches, ErrorLogs.whereOf, passes.
  cbn [prisma_errorLog.errorType prisma_errorLog.platform].
  rewrite andb_True.
  rewrite (where_field_spec _
             (λ ty, bool_decide (collation e (ErrorLog.errorType r)
                                 = collation e ty))
             (λ ty, collation e (ErrorLog.errorType r) = collation e ty))
    by (intros s; apply bool_decide_spec).
  rewrite (where_field_spec _
             (λ p, bool_decide (collation e <$> ErrorLog.platform r
                                = Some (collation e p)))
             (λ p, collation e <$> ErrorLog.platform r = Some (collation e p)))
    by (intros s; apply bool_decide_spec).
  done.
Qed.

(** *** Reading a limit *)













(** The read path run on the three sample reports: a filter in another
    spelling where the engine folds capitals, a limit that is no number,
    an empty limit, and a limit with trailing text. *)
Example read_path_limits :
  (∃ b, (ErrorLogs.GET (ErrorLogs.mkSearchParams (Some "1") (Some "CRASH") None)
           sampleErrors).1 = Ok b
        ∧ ErrorLog.id <$> ErrorLogs.data b = ["e2"]
        ∧ ErrorLogs.errorTypes (ErrorLogs.stats b)
          = [ErrorLogs.mkErrorTypeCount "crash" 2;
             ErrorLogs.mkErrorTypeCount "network" 1])
  ∧ (ErrorLogs.GET (ErrorLogs.mkSearchParams (Some "many") None None)
       sampleErrors).1
    = Error 500 "Failed to fetch error logs"
  ∧ ErrorLogs.limitOf (ErrorLogs.mkSearchParams (Some "") None None) = Some 50%Z
  ∧ ErrorLogs.limitOf (ErrorLogs.mkSearchParams (Some "2nd") None None)
    = Some 2%Z
  ∧ parseInt "9007199254740993" = Some 9007199254740992%Z.
Proof.
  split; [eexists; repeat split; reflexivity|]. repeat split; reflexivity.
Qed.

(** * Further properties of the handlers *)

(** ** Runs of the intake and of the unregister handler *)

Lemma unregister_refused now body w :
  truthy (UnregisterToken.expoPushToken body) = false →
  UnregisterToken.POST now (Some body) w
  = (Error 400 "expoPushToken is required", w).
Proof. intros H. unfold UnregisterToken.POST. by rewrite H. Qed.

Lemma unregister_accepted now body w :
  truthy (UnregisterToken.expoPushToken body) = true →
  ∃ t, UnregisterToken.expoPushToken body = Some t ∧ t ≠ ""
       ∧ UnregisterToken.POST now (Some body) w
         = (Ok (UnregisterToken.mkResult true "Token unregistered successfully"
                  (tokenCount t w)),
            set_pushTokens
              (prisma_pushToken.deactivate (engine w) now t <$> pushTokens w)
              (log_calls [PushToken_updateMany_isActive_false t] w)).
Proof.
  intros H. pose proof H as H'. apply truthy_spec in H' as (t & Ht & Hne).
  exists t. split; [done|]. split; [done|].
  destruct body as [tok]. simpl in Ht. subst tok.
  by apply unregister_run.
Qed.

Lemma or_null_not_empty v : or_null v ≠ Some EmptyString.
Proof.
  unfold or_null. destruct (truthy v) eqn:Hv; [|done].
  apply truthy_spec in Hv as (s & -> & Hs). congruence.
Qed.

Lemma logRows_shape now title body data n tokens :
  Forall (λ l, broadcastRow l
               ∧ ∃ t, t ∈ tokens
                      ∧ NotificationLog.tokenId l = Some (PushToken.id t)
                      ∧ NotificationLog.title l = title
                      ∧ NotificationLog.body l = body
                      ∧ NotificationLog.data l = Some data
                      ∧ NotificationLog.sentAt l = now)
         (logRows now title body data n tokens).
Proof.
  revert n. induction tokens as [|t tokens IH]; intros n; simpl; constructor.
  - split; [by repeat split|]. exists t. split; [by left|done].
  - eapply Forall_impl; [apply IH|].
    intros l [Hrow (t' & Hin & Hrest)]. split; [done|].
    exists t'. split; [by right|done].
Qed.

(** ** What one request adds to the two logs *)

Section Logs.
Variable expo : Expo.

Lemma serve_logs req w :
  ∃ sent reported,
    notificationLogs (serve expo req w) = notificationLogs w ++ sent
    ∧ errorLogs (serve expo req w) = errorLogs w ++ reported
    ∧ Forall (λ l, broadcastRow l
                   ∧ ∃ t, t ∈ activeTokens w
                          ∧ NotificationLog.tokenId l = Some (PushToken.id t)) sent
    ∧ length reported ≤ 1
    ∧ Forall intakeRow reported.
Proof.
  assert (∃ sent reported,
            notificationLogs w = notificationLogs w ++ sent
            ∧ errorLogs w = errorLogs w ++ reported
            ∧ Forall (λ l, broadcastRow l
                           ∧ ∃ t, t ∈ activeTokens w
                                  ∧ NotificationLog.tokenId l
                                    = Some (PushToken.id t)) sent
            ∧ length reported ≤ 1
            ∧ Forall intakeRow reported) as Hnone.
  { exists [], []. rewrite !app_nil_r. simpl.
    repeat split; [constructor|lia|constructor]. }
  destruct req as [now [req|]|now [body|]|now [body|]|now [body|]|sp];
    cbn [serve]; try exact Hnone.
  - (* broadcast *)
    destruct (truthy (Send.title req)) eqn:Ht;
      [|by rewrite (POST_invalid expo now req w (or_introl Ht))].
    destruct (truthy (Send.body req)) eqn:Hb;
      [|by rewrite (POST_invalid expo now req w (or_intror Hb))].
    destruct (decide (activeTokens w = [])) as [Hnil|Hne].
    + by rewrite (POST_empty expo now req w Ht Hb Hnil).
    + rewrite (POST_run expo now req w Ht Hb Hne).
      cbn [snd afterBroadcast notificationLogs errorLogs].
      eexists _, [].
      split; [reflexivity|]. split; [by rewrite app_nil_r|].
      split; [|simpl; split; [lia|constructor]].
      unfold newLogRows. destruct (loggable req w); [|constructor].
      eapply Forall_impl; [apply logRows_shape|].
      intros l [Hrow (t & Hin & Hid & _)]. split; [done|]. by exists t.
  - (* register *)
    destruct (RegisterToken.token body) as [t|] eqn:Htok;
      [|unfold RegisterToken.POST; rewrite Htok; exact Hnone].
    destruct (isExpoPushToken expo t) eqn:Hvalid;
      [|unfold RegisterToken.POST; rewrite Htok, Hvalid; exact Hnone].
    destruct (rowOf t w) as [r|] eqn:Hrow.
    + destruct (platformFits body w) eqn:Hfits.
      * rewrite (register_existing expo now body t r w Htok Hvalid Hrow Hfits).
        exact Hnone.
      * rewrite (register_existing_refused expo now body t r w Htok Hvalid Hrow
                   Hfits).
        exact Hnone.
    + destruct (RegisterToken.platform body) as [p|] eqn:Hp.
      * destruct (varchar (engine w) t && varchar (engine w) p) eqn:Hfits.
        -- apply andb_true_iff in Hfits as [Hft Hfp].
           rewrite (register_new expo now body t p w Htok Hvalid Hp Hrow Hft
                      Hfp).
           exact Hnone.
        -- rewrite (register_new_refused expo now body t p w Htok Hvalid Hp
                      Hrow Hfits).
           exact Hnone.
      * rewrite (register_without_platform expo now body t w Htok Hvalid Hp
                   Hrow).
        exact Hnone.
  - (* unregister *)
    destruct (truthy (UnregisterToken.expoPushToken body)) eqn:Htok.
    + destruct (unregister_accepted now body w Htok) as (t & _ & _ & ->).
      exact Hnone.
    + by rewrite (unregister_refused now body w Htok).
  - (* error intake *)
    destruct (truthy (ErrorLogs.errorType body)) eqn:Hty;
      [|by rewrite (intake_refused now body w (or_introl Hty))].
    destruct (truthy (ErrorLogs.message body)) eqn:Hmsg;
      [|by rewrite (intake_refused now body w (or_intror Hmsg))].
    destruct (storable body w) eqn:Hfits;
      [|by rewrite (intake_unstorable now body w Hty Hmsg Hfits)].
    rewrite (intake_run now body w Hty Hmsg Hfits).
    cbn [snd notificationLogs errorLogs].
    exists [], [ErrorLog.mk ("c" +:+ pretty (nextId w))
                  (or_null (ErrorLogs.tokenId body))
                  (or_null (ErrorLogs.platform body))
                  (default "" (ErrorLogs.errorType body))
                  (default "" (ErrorLogs.message body))
                  (or_null (ErrorLogs.stackTrace body))
                  (json_or_null (ErrorLogs.context body))
                  (or_null (ErrorLogs.appVersion body)) now].
    rewrite app_nil_r. split; [done|]. split; [done|].
    split; [constructor|]. split; [simpl; lia|].
    constructor; [|constructor].
    apply truthy_spec in Hty as (ty & -> & Hty).
    apply truthy_spec in Hmsg as (msg & -> & Hmsg).
    unfold intakeRow. cbn.
    repeat split; try done; apply or_null_not_empty.
  - (* error query *)
    unfold ErrorLogs.GET. destruct (ErrorLogs.limitOf sp); [|exact Hnone].
    unfold bind, prisma_errorLog.findMany, bind, call.
    cbn [engine log_calls errorLogs]. destruct (_ <$> _); exact Hnone.
Qed.

End Logs.

(** ** Invariants of the service *)

Section Invariants.
Variable expo : Expo.

Lemma serve_keeps_positions req w i r :
  pushTokens w !! i = Some r →
  ∃ r', pushTokens (serve expo req w) !! i = Some r'
        ∧ PushToken.id r' = PushToken.id r
        ∧ PushToken.token r' = PushToken.token r.
Proof.
  intros Hi.
  destruct (serve_rows expo req w) as (rows' & extra & -> & Hsame & _ & _).
  destruct (Forall2_lookup_l _ _ _ _ _ Hsame Hi) as (r' & Hr' & Hid & Htok).
  exists r'. split; [|done]. by apply lookup_app_l_Some.
Qed.

(** X1.  Whatever requests are served, in any order: the two logs only
    grow at their end (no stored row is changed or removed), and every row
    of the token table stays at its place with its identifier and its token
    string (tokens are never deleted, re-keyed or re-addressed). *)
Theorem X1_tables_are_append_only reqs w :
  notificationLogs w `prefix_of` notificationLogs (serveAll expo reqs w)
  ∧ errorLogs w `prefix_of` errorLogs (serveAll expo reqs w)
  ∧ length (pushTokens w) ≤ length (pushTokens (serveAll expo reqs w))
  ∧ ∀ i r, pushTokens w !! i = Some r →
           ∃ r', pushTokens (serveAll expo reqs w) !! i = Some r'
                 ∧ PushToken.id r' = PushToken.id r
                 ∧ PushToken.token r' = PushToken.token r.
Proof.
  revert w. induction reqs as [|req reqs IH]; intros w.
  - cbn. repeat split; [done|done|done|]. intros i r Hi. by exists r.
  - cbn [serveAll foldl]. fold (serveAll expo reqs (serve expo req w)).
    destruct (IH (serve expo req w)) as (Hn & He & Hlen & Hpos).
    destruct (serve_logs expo req w) as (sent & reported & Hn1 & He1 & _).
    destruct (serve_rows expo req w) as (rows' & extra & Hrows & Hsame & _ & _).
    split; [etrans; [|exact Hn]; rewrite Hn1; by apply prefix_app_r|].
    split; [etrans; [|exact He]; rewrite He1; by apply prefix_app_r|].
    split.
    { etrans; [|exact Hlen]. rewrite Hrows, length_app.
      rewrite (sameKeys_length _ _ Hsame). lia. }
    intros i r Hi.
    destruct (serve_keeps_positions req w i r Hi) as (r1 & Hr1 & Hid1 & Htok1).
    destruct (Hpos i r1 Hr1) as (r2 & Hr2 & Hid2 & Htok2).
    exists r2. split; [done|]. split; congruence.
Qed.

(** X2.  The unique index on the token string is an invariant: if no two
    stored rows share a token string, then after any requests still no two
    rows do. *)
Theorem X2_token_strings_stay_unique reqs w :
  NoDup (PushToken.token <$> pushTokens w) →
  NoDup (PushToken.token <$> pushTokens (serveAll expo reqs w)).
Proof.
  revert w. induction reqs as [|req reqs IH]; intros w Hnd; [done|].
  cbn [serveAll foldl]. apply IH. by apply serve_keeps_tokens_unique.
Qed.

(** X3.  Registration is the only way a row gets into the token table and
    it checks the address format: if every stored address is well formed,
    it stays so after any requests, and then the filter of the broadcast
    drops nothing, so that every broadcast that answers with a 200 body
    reports [sent] equal to the number of active tokens. *)
Theorem X3_addresses_stay_well_formed reqs w :
  Forall (λ r, isExpoPushToken expo (PushToken.token r) = true) (pushTokens w) →
  let w' := serveAll expo reqs w in
  Forall (λ r, isExpoPushToken expo (PushToken.token r) = true) (pushTokens w')
  ∧ sendSet expo w' = activeTokens w'
  ∧ ∀ now request b,
      (Send.POST expo now request w').1 = Ok b →
      Send.sent b = length (activeTokens w').
Proof.
  intros Hall w'.
  assert (Forall (λ r, isExpoPushToken expo (PushToken.token r) = true)
                 (pushTokens w')) as Hall'.
  { subst w'. revert w Hall. induction reqs as [|req reqs IH]; intros w Hall;
      [done|].
    cbn [serveAll foldl]. apply IH.
    by apply serve_keeps_addresses_well_formed. }
  assert (sendSet expo w' = activeTokens w') as Hset.
  { apply sendSet_all_valid. unfold activeTokens.
    apply Forall_forall. intros r Hr.
    apply list_elem_of_filter in Hr as [_ Hr].
    rewrite Forall_forall in Hall'. by rewrite (Hall' r Hr). }
  split; [done|]. split; [done|].
  intros now [req|] b Hok; [|done].
  destruct (truthy (Send.title req)) eqn:Ht;
    [|by rewrite (POST_invalid expo now req w' (or_introl Ht)) in Hok].
  destruct (truthy (Send.body req)) eqn:Hb;
    [|by rewrite (POST_invalid expo now req w' (or_intror Hb)) in Hok].
  destruct (decide (activeTokens w' = [])) as [Hnil|Hne].
  - rewrite (POST_empty expo now req w' Ht Hb Hnil) in Hok.
    inversion Hok; subst b. by rewrite Hnil.
  - rewrite (POST_run expo now req w' Ht Hb Hne) in Hok.
    inversion Hok; subst b. cbn [Send.sent].
    by rewrite length_messagesOf, Hset.
Qed.

(** X4.  Every notification log row has the shape the broadcast gives it:
    status [sent], no ticket, receipt, error or delivery data, whatever the
    gateway answered.  If all stored rows have it, so have all rows after
    any requests. *)
Theorem X4_log_rows_are_always_sent reqs w :
  Forall broadcastRow (notificationLogs w) →
  Forall broadcastRow (notificationLogs (serveAll expo reqs w)).
Proof.
  revert w. induction reqs as [|req reqs IH]; intros w Hall; [done|].
  cbn [serveAll foldl]. apply IH.
  destruct (serve_logs expo req w) as (sent & reported & -> & _ & Hsent & _).
  apply Forall_app. split; [done|].
  eapply Forall_impl; [exact Hsent|]. by intros l [? _].
Qed.

(** X5.  Every notification log row points to a stored token row, and
    keeps doing so after any requests: log rows are written for rows of
    the snapshot only and token rows are never removed or re-keyed. *)
Theorem X5_log_rows_refer_to_tokens reqs w :
  logsReferToTokens w → logsReferToTokens (serveAll expo reqs w).
Proof.
  revert w. induction reqs as [|req reqs IH]; intros w Href; [done|].
  cbn [serveAll foldl]. apply IH. clear IH.
  assert (∀ r, r ∈ pushTokens w →
               ∃ r', r' ∈ pushTokens (serve expo req w)
                     ∧ PushToken.id r' = PushToken.id r) as Hkeep.
  { intros r Hr. apply list_elem_of_lookup in Hr as [i Hi].
    destruct (serve_keeps_positions req w i r Hi) as (r' & Hr' & Hid & _).
    exists r'. split; [|done]. apply list_elem_of_lookup. by exists i. }
  destruct (serve_logs expo req w) as (sent & reported & Hn & _ & Hsent & _).
  intros l Hl. rewrite Hn in Hl. apply elem_of_app in Hl as [Hl|Hl].
  - destruct (Href l Hl) as (r & Hr & Hid).
    destruct (Hkeep r Hr) as (r' & Hr' & Hid'). exists r'. split; [done|].
    congruence.
  - rewrite Forall_forall in Hsent.
    destruct (Hsent l Hl) as [_ (t & Ht & Hid)].
    apply list_elem_of_filter in Ht as [_ Ht].
    destruct (Hkeep t Ht) as (r' & Hr' & Hid'). exists r'. split; [done|].
    congruence.
Qed.

(** X6.  The intake never stores a report with an empty error type or
    message, nor an optional text field holding the empty string (these
    are stored as null): if all stored reports are of this shape, so are
    all reports after any requests. *)
Theorem X6_stored_reports_are_complete reqs w :
  Forall intakeRow (errorLogs w) →
  Forall intakeRow (errorLogs (serveAll expo reqs w)).
Proof.
  revert w. induction reqs as [|req reqs IH]; intros w Hall; [done|].
  cbn [serveAll foldl]. apply IH.
  destruct (serve_logs expo req w) as (sent & reported & _ & -> & _ & _ & Hrep).
  apply Forall_app. by split.
Qed.

End Invariants.

Lemma X2_witness :
  NoDup (PushToken.token
           <$> pushTokens
                 (serveAll (stubExpo 100 [])
                    [RegisterRequest 1%Z
                       (Some (RegisterToken.mkBody (Some "ExponentPushToken[0]")
                                (Some "android") None));
                     RegisterRequest 2%Z
                       (Some (RegisterToken.mkBody (Some "ExponentPushToken[9]")
                                (Some "ios") None))]
                    (audience 2))).
Proof.
  apply (X2_token_strings_stay_unique (stubExpo 100 [])).
  apply (bool_decide_unpack _). vm_compute. exact I.
Defined.

Lemma X3_witness :
  let w' := serveAll (stubExpo 100 [])
              [RegisterRequest 1%Z
                 (Some (RegisterToken.mkBody (Some "not-a-push-token") (Some "ios")
                          None));
               RegisterRequest 2%Z
                 (Some (RegisterToken.mkBody (Some "ExponentPushToken[9]")
                          (Some "ios") None))]
              (audience 2) in
  Forall (λ r, isExpoPushToken (stubExpo 100 []) (PushToken.token r) = true)
         (pushTokens w')
  ∧ sendSet (stubExpo 100 []) w' = activeTokens w'
  ∧ ∀ now request b,
      (Send.POST (stubExpo 100 []) now request w').1 = Ok b →
      Send.sent b = length (activeTokens w').
Proof.
  apply (X3_addresses_stay_well_formed (stubExpo 100 [])).
  apply (bool_decide_unpack _). vm_compute. exact I.
Defined.

Lemma X4_witness :
  Forall broadcastRow
    (notificationLogs
       (serveAll (stubExpo 2 [2]) [SendRequest 5%Z (Some hello)] busyWorld)).
Proof.
  apply (X4_log_rows_are_always_sent (stubExpo 2 [2])).
  constructor; [|constructor]. unfold broadcastRow. cbn.
  repeat split; try reflexivity. by eexists.
Defined.

Lemma X5_witness :
  logsReferToTokens
    (serveAll (stubExpo 2 [2])
       [SendRequest 5%Z (Some hello);
        UnregisterRequest 6%Z
          (Some (UnregisterToken.mkBody (Some "ExponentPushToken[0]")))]
       busyWorld).
Proof.
  apply (X5_log_rows_refer_to_tokens (stubExpo 2 [2])).
  intros l Hl. cbn in Hl. apply list_elem_of_singleton in Hl as ->.
  eexists. split; [by left|reflexivity].
Defined.

Lemma X6_witness :
  Forall intakeRow
    (errorLogs
       (serveAll (stubExpo 100 [])
          [ErrorLogRequest 7%Z
             (Some (ErrorLogs.mkBody (Some "") (Some "ios") (Some "NETWORK_ERROR")
                      (Some "timeout") None None (Some "")))]
          busyWorld)).
Proof.
  apply (X6_stored_reports_are_complete (stubExpo 100 [])).
  constructor; [|constructor]. unfold intakeRow. cbn.
  repeat split; discriminate.
Defined.

(** ** Registration *)

(** X7.  A registration whose token is missing, or fails the address-format
    check, is answered with the 400 error before any database call: the
    world is unchanged. *)
Theorem X7_registration_refuses_malformed_address expo now body w :
  RegisterToken.token body = None
  ∨ (∃ t, RegisterToken.token body = Some t ∧ isExpoPushToken expo t = false) →
  RegisterToken.POST expo now (Some body) w
  = (Error 400 "Invalid Expo push token format", w).
Proof.
  intros [Hnone|(t & Htok & Hbad)]; unfold RegisterToken.POST.
  - by rewrite Hnone.
  - by rewrite Htok, Hbad.
Qed.

Lemma X7_witness :
  RegisterToken.POST (stubExpo 100 []) 1%Z
    (Some (RegisterToken.mkBody (Some "not-a-push-token") (Some "ios") None))
    (audience 2)
  = (Error 400 "Invalid Expo push token format", audience 2).
Proof.
  apply (X7_registration_refuses_malformed_address (stubExpo 100 []) 1%Z
           (RegisterToken.mkBody (Some "not-a-push-token") (Some "ios") None)
           (audience 2)).
  right. exists "not-a-push-token". split; reflexivity.
Defined.




(** ** Unregistration *)

Lemma deactivate_fields e now t r :
  let r' := prisma_pushToken.deactivate e now t r in
  PushToken.id r' = PushToken.id r
  ∧ PushToken.token r' = PushToken.token r
  ∧ PushToken.platform r' = PushToken.platform r
  ∧ PushToken.deviceInfo r' = PushToken.deviceInfo r
  ∧ PushToken.createdAt r' = PushToken.createdAt r
  ∧ PushToken.lastUsedAt r' = PushToken.lastUsedAt r.
Proof. unfold prisma_pushToken.deactivate. by destruct (decide _). Qed.

(** X9.  An unregister call with a non-empty token string deactivates
    every row whose token string the engine takes for equal to it, and
    reports how many there are (at most one under the unique index); it
    removes no row, leaves every other row exactly as it was, and changes
    nothing of a deactivated row but its active flag and update time. *)
Theorem X9_unregistration_deactivates now t w :
  t ≠ EmptyString →
  let e := engine w in
  let run := UnregisterToken.POST now (Some (UnregisterToken.mkBody (Some t))) w in
  let matching :=
    filter (λ r, collation e (PushToken.token r) = collation e t)
           (pushTokens w) in
  run.1 = Ok (UnregisterToken.mkResult true "Token unregistered successfully"
                (length matching))
  ∧ length (pushTokens run.2) = length (pushTokens w)
  ∧ (∀ r, r ∈ pushTokens run.2 →
          collation e (PushToken.token r) = collation e t →
          PushToken.isActive r = false)
  ∧ (∀ i r, pushTokens w !! i = Some r →
            collation e (PushToken.token r) ≠ collation e t →
            pushTokens run.2 !! i = Some r)
  ∧ (∀ i r, pushTokens w !! i = Some r →
            collation e (PushToken.token r) = collation e t →
            ∃ r', pushTokens run.2 !! i = Some r'
                  ∧ PushToken.isActive r' = false
                  ∧ PushToken.id r' = PushToken.id r
                  ∧ PushToken.token r' = PushToken.token r
                  ∧ PushToken.platform r' = PushToken.platform r
                  ∧ PushToken.deviceInfo r' = PushToken.deviceInfo r
                  ∧ PushToken.createdAt r' = PushToken.createdAt r
                  ∧ PushToken.lastUsedAt r' = PushToken.lastUsedAt r)
  ∧ (uniqueTokens w → length matching ≤ 1).
Proof.
  intros Hne e run matching. subst run. rewrite (unregister_run now t w Hne).
  cbn [fst snd set_pushTokens pushTokens]. fold e.
  assert (tokenCount t w = length matching) as Hcount by done.
  split; [by rewrite Hcount|]. split; [by rewrite length_fmap|].
  split.
  { intros r Hr Htok. apply list_elem_of_fmap in Hr as (r0 & -> & _).
    unfold prisma_pushToken.deactivate, prisma_pushToken.carries in *.
    destruct (decide (collation e (PushToken.token r0) = collation e t));
      done. }
  split.
  { intros i r Hi Htok. rewrite list_lookup_fmap, Hi. cbn.
    unfold prisma_pushToken.deactivate. by rewrite decide_False. }
  split.
  { intros i r Hi Htok. rewrite list_lookup_fmap, Hi. cbn.
    eexists. split; [reflexivity|]. split.
    - unfold prisma_pushToken.deactivate. by rewrite decide_True.
    - apply deactivate_fields. }
  intros Hnd. rewrite <- Hcount. destruct (rowOf t w) as [r|] eqn:Hrow.
  - by rewrite (tokenCount_unique t r w Hnd Hrow).
  - rewrite (tokenCount_absent t w Hrow). lia.
Qed.

Lemma X9_witness :
  let run := UnregisterToken.POST 6%Z
               (Some (UnregisterToken.mkBody (Some "EXPONENTPUSHTOKEN[0]")))
               busyWorld in
  run.1 = Ok (UnregisterToken.mkResult true "Token unregistered successfully" 1)
  ∧ (λ r, (PushToken.token r, PushToken.isActive r)) <$> pushTokens run.2
    = [("ExponentPushToken[0]", false); ("ExponentPushToken[1]", false);
       ("ExponentPushToken[2]", true)].
Proof.
  intros run.
  destruct (X9_unregistration_deactivates 6%Z "EXPONENTPUSHTOKEN[0]" busyWorld
              ltac:(discriminate)) as (Hrun & _).
  split; [exact Hrun|reflexivity].
Defined.

Lemma filter_fmap_unchanged {A} (P : A → Prop) `{∀ x, Decision (P x)}
    (f : A → A) (l : list A) :
  (∀ x, x ∈ l → (P (f x) ↔ P x) ∧ (P x → f x = x)) →
  filter P (f <$> l) = filter P l.
Proof.
  induction l as [|x l IH]; intros Hf; [done|].
  destruct (Hf x ltac:(by left)) as [Hiff Hfix].
  rewrite fmap_cons, !filter_cons, IH by (intros y Hy; apply Hf; by right).
  destruct (decide (P x)) as [HP|HP].
  - rewrite decide_True by by apply Hiff. by rewrite Hfix.
  - rewrite decide_False by by rewrite Hiff. done.
Qed.

(** X10.  Unregistering is idempotent: a second unregister call for the
    same token string reports the same count as the first, flips no
    further active flag, and leaves the active rows exactly as they were. *)
Theorem X10_unregistration_is_idempotent now1 now2 t w :
  t ≠ EmptyString →
  let first := UnregisterToken.POST now1
                 (Some (UnregisterToken.mkBody (Some t))) w in
  let second := UnregisterToken.POST now2
                  (Some (UnregisterToken.mkBody (Some t))) first.2 in
  second.1 = first.1
  ∧ PushToken.isActive <$> pushTokens second.2
    = PushToken.isActive <$> pushTokens first.2
  ∧ activeTokens second.2 = activeTokens first.2.
Proof.
  intros Hne first second. subst second first.
  rewrite (unregister_run now1 t w Hne). cbn [fst snd].
  rewrite (unregister_run now2 t _ Hne). cbn [fst snd].
  unfold tokenCount, activeTokens.
  cbn [set_pushTokens pushTokens engine log_calls].
  split; [|split].
  - do 2 f_equal.
    by apply sameKeys_count, sameKeys_fmap, deactivate_keys.
  - rewrite <- !list_fmap_compose. apply list_fmap_ext. intros i r _. cbn.
    unfold prisma_pushToken.deactivate.
    destruct (decide (prisma_pushToken.carries (engine w) t r)); cbn.
    + by rewrite decide_True.
    + by rewrite decide_False.
  - apply filter_fmap_unchanged. intros r Hr.
    apply list_elem_of_fmap in Hr as (r0 & -> & _).
    unfold prisma_pushToken.deactivate.
    destruct (decide (prisma_pushToken.carries (engine w) t r0)) as [Heq|Hneq];
      cbn.
    + rewrite decide_True by done. cbn. split; [done|]. by intros [].
    + rewrite decide_False by done. done.
Qed.

Lemma X10_witness :
  let gone := Some (UnregisterToken.mkBody (Some "ExponentPushToken[0]")) in
  let first := UnregisterToken.POST 6%Z gone busyWorld in
  let second := UnregisterToken.POST 7%Z gone first.2 in
  second.1 = first.1
  ∧ PushToken.isActive <$> pushTokens second.2
    = PushToken.isActive <$> pushTokens first.2
  ∧ activeTokens second.2 = activeTokens first.2.
Proof.
  apply (X10_unregistration_is_idempotent 6%Z 7%Z "ExponentPushToken[0]" busyWorld).
  discriminate.
Defined.

(** ** Who a broadcast reaches *)

Lemma newCalls_same w : newCalls w w = [].
Proof. unfold newCalls. by rewrite drop_all. Qed.

(** The addresses and token identifiers a broadcast uses are those of the
    rows of its snapshot. *)
Lemma broadcast_uses_snapshot expo now request w :
  let calls := newCalls w (Send.POST expo now request w).2 in
  (∀ a, a ∈ ExpoPushMessage.to <$> mjoin (gatewayCalls calls) →
        ∃ r, r ∈ sendSet expo w ∧ PushToken.token r = a)
  ∧ (∀ i, i ∈ logWrites calls →
          ∃ r, r ∈ activeTokens w ∧ PushToken.id r = i).
Proof.
  intros calls. subst calls.
  assert (∀ w', w' = w ∨ w' = log_calls [PushToken_findMany_active] w →
            (∀ a, a ∈ ExpoPushMessage.to <$> mjoin (gatewayCalls (newCalls w w')) →
                  ∃ r, r ∈ sendSet expo w ∧ PushToken.token r = a)
            ∧ (∀ i, i ∈ logWrites (newCalls w w') →
                    ∃ r, r ∈ activeTokens w ∧ PushToken.id r = i)) as Hquiet.
  { intros w' [->| ->]; rewrite ?newCalls_same, ?newCalls_log_calls; cbn;
      split; intros x Hx; by apply elem_of_nil in Hx. }
  destruct request as [req|]; [|apply Hquiet; by left].
  destruct (truthy (Send.title req)) eqn:Ht;
    [|rewrite (POST_invalid expo now req w (or_introl Ht)); apply Hquiet; by left].
  destruct (truthy (Send.body req)) eqn:Hb;
    [|rewrite (POST_invalid expo now req w (or_intror Hb)); apply Hquiet; by left].
  destruct (decide (activeTokens w = [])) as [Hnil|Hne].
  - rewrite (POST_empty expo now req w Ht Hb Hnil). apply Hquiet. by right.
  - destruct (broadcast_covers_snapshot expo now req w Ht Hb Hne)
      as (Hto & Hlogs & _).
    rewrite Hto, Hlogs. split.
    + intros a Ha. apply list_elem_of_fmap in Ha as (r & -> & Hr). by exists r.
    + intros i Hi. apply list_elem_of_fmap in Hi as (r & -> & Hr). by exists r.
Qed.

Lemma unregistered_rows_inactive now t w :
  t ≠ EmptyString →
  ∀ r, r ∈ pushTokens (UnregisterToken.POST now
                         (Some (UnregisterToken.mkBody (Some t))) w).2 →
       PushToken.token r = t → PushToken.isActive r = false.
Proof.
  intros Hne r Hr Htok. rewrite (unregister_run now t w Hne) in Hr.
  cbn [snd set_pushTokens pushTokens] in Hr.
  apply list_elem_of_fmap in Hr as (r0 & -> & _).
  unfold prisma_pushToken.deactivate in *.
  destruct (decide (prisma_pushToken.carries (engine w) t r0)) as [|Hn];
    [done|].
  destruct Hn. unfold prisma_pushToken.carries. by rewrite Htok.
Qed.

(** X11.  After a token string has been unregistered, the next broadcast,
    whatever its request, addresses no message to it: its rows are outside
    the active snapshot. *)
Theorem X11_unregistered_token_gets_no_message expo now later t request w :
  t ≠ EmptyString →
  let w1 := (UnregisterToken.POST now
               (Some (UnregisterToken.mkBody (Some t))) w).2 in
  let calls := newCalls w1 (Send.POST expo later request w1).2 in
  (∀ r, r ∈ activeTokens w1 → PushToken.token r ≠ t)
  ∧ (t ∉ ExpoPushMessage.to <$> mjoin (gatewayCalls calls)).
Proof.
  intros Hne w1 calls.
  assert (∀ r, r ∈ activeTokens w1 → PushToken.token r ≠ t) as Hout.
  { intros r Hr Htok. apply list_elem_of_filter in Hr as [Hactive Hr].
    rewrite (unregistered_rows_inactive now t w Hne r Hr Htok) in Hactive.
    done. }
  split; [exact Hout|].
  intros Hin.
  destruct (broadcast_uses_snapshot expo later request w1) as [Haddr _].
  destruct (Haddr t Hin) as (r & Hr & Htok).
  apply sendSet_subset in Hr. by apply (Hout r).
Qed.

Lemma X11_witness :
  let w1 := (UnregisterToken.POST 6%Z
               (Some (UnregisterToken.mkBody (Some "ExponentPushToken[0]")))
               busyWorld).2 in
  let calls := newCalls w1 (Send.POST (stubExpo 100 []) 7%Z (Some hello) w1).2 in
  (∀ r, r ∈ activeTokens w1 → PushToken.token r ≠ "ExponentPushToken[0]")
  ∧ ("ExponentPushToken[0]" ∉ ExpoPushMessage.to <$> mjoin (gatewayCalls calls)).
Proof.
  apply (X11_unregistered_token_gets_no_message (stubExpo 100 []) 6%Z 7%Z
           "ExponentPushToken[0]" (Some hello) busyWorld).
  discriminate.
Defined.



(** ** What a broadcast changes *)

Lemma NoDup_fmap_eq {A B} (f : A → B) (l : list A) x y :
  NoDup (f <$> l) → x ∈ l → y ∈ l → f x = f y → x = y.
Proof.
  induction l as [|z l IH]; intros Hnd Hx Hy Heq; [by apply elem_of_nil in Hx|].
  rewrite fmap_cons in Hnd. apply NoDup_cons in Hnd as [Hz Hnd].
  apply elem_of_cons in Hx as [->|Hx]; apply elem_of_cons in Hy as [->|Hy].
  - done.
  - exfalso. apply Hz. rewrite Heq. by apply list_elem_of_fmap_2.
  - exfalso. apply Hz. rewrite <- Heq. by apply list_elem_of_fmap_2.
  - by apply IH.
Qed.

(** X13.  With identifiers unique (the primary key), a broadcast with a
    valid title and body rewrites the token table in exactly one way:
    every active row gets the time of the broadcast as its last-used and
    update time, and every inactive row, and every other field of an
    active row, is left as it was.  This holds whatever the gateway
    answers, and also for rows whose address fails the format check. *)
Theorem X13_broadcast_refreshes_active_rows expo now req w :
  NoDup (PushToken.id <$> pushTokens w) →
  truthy (Send.title req) = true → truthy (Send.body req) = true →
  pushTokens (Send.POST expo now (Some req) w).2 = refreshed now <$> pushTokens w.
Proof.
  intros Hnd Ht Hb.
  destruct (decide (activeTokens w = [])) as [Hnil|Hne].
  - rewrite (POST_empty expo now req w Ht Hb Hnil). cbn [snd log_calls pushTokens].
    rewrite <- (list_fmap_id (pushTokens w)) at 1.
    apply list_fmap_ext. intros i r Hi. cbn. unfold refreshed.
    destruct (PushToken.isActive r) eqn:Hactive; [|done].
    exfalso. assert (r ∈ activeTokens w) as Hin.
    { apply list_elem_of_filter. split; [by rewrite Hactive|].
      apply list_elem_of_lookup. by exists i. }
    rewrite Hnil in Hin. by apply elem_of_nil in Hin.
  - rewrite (POST_run expo now req w Ht Hb Hne).
    cbn [snd afterBroadcast pushTokens].
    apply list_fmap_ext. intros i r Hi.
    assert (r ∈ pushTokens w) as Hr by (apply list_elem_of_lookup; by exists i).
    unfold prisma_pushToken.touch, refreshed.
    destruct (PushToken.isActive r) eqn:Hactive.
    + rewrite decide_True; [done|].
      apply list_elem_of_fmap_2, list_elem_of_filter. by rewrite Hactive.
    + rewrite decide_False; [done|].
      intros Hin. apply list_elem_of_fmap in Hin as (r' & Hid & Hr').
      apply list_elem_of_filter in Hr' as [Hactive' Hr'].
      rewrite (NoDup_fmap_eq PushToken.id _ r r' Hnd Hr Hr' Hid) in Hactive.
      by rewrite Hactive in Hactive'.
Qed.

Lemma X13_witness :
  pushTokens (Send.POST (stubExpo 2 [1]) 5000%Z (Some hello) busyWorld).2
  = refreshed 5000%Z <$> pushTokens busyWorld.
Proof.
  apply (X13_broadcast_refreshes_active_rows (stubExpo 2 [1]) 5000%Z hello busyWorld);
    [|reflexivity|reflexivity].
  apply (bool_decide_unpack _). vm_compute. exact I.
Defined.





(** X16.  Every message a broadcast hands to the gateway carries the title,
    body and badge of the request, its data payload or an empty object,
    its sound or [default], its priority or [high]; and when title and
    body are valid the messages go out in the order of the active rows
    with a well-formed address, one per row, each addressed to the row's
    token string. *)
Theorem X16_messages_carry_the_request expo now req w :
  let calls := newCalls w (Send.POST expo now (Some req) w).2 in
  Forall (λ m, Some (ExpoPushMessage.title m) = Send.title req
               ∧ Some (ExpoPushMessage.body m) = Send.body req
               ∧ ExpoPushMessage.badge m = Send.badge req
               ∧ ExpoPushMessage.data m = JObj (default [] (Send.data req))
               ∧ ExpoPushMessage.sound m = default "default" (Send.sound req)
               ∧ ExpoPushMessage.priority m
                 = default PriorityHigh (Send.priority req))
         (mjoin (gatewayCalls calls))
  ∧ (truthy (Send.title req) = true → truthy (Send.body req) = true →
     ExpoPushMessage.to <$> mjoin (gatewayCalls calls)
     = PushToken.token <$> sendSet expo w).
Proof.
  intros calls. subst calls.
  assert (∀ w', w' = w ∨ w' = log_calls [PushToken_findMany_active] w →
            mjoin (gatewayCalls (newCalls w w')) = []) as Hquiet.
  { intros w' [->| ->]; by rewrite ?newCalls_same, ?newCalls_log_calls. }
  destruct (truthy (Send.title req)) eqn:Ht;
    [|rewrite (POST_invalid expo now req w (or_introl Ht)), Hquiet by (by left);
      split; [constructor|done]].
  destruct (truthy (Send.body req)) eqn:Hb;
    [|rewrite (POST_invalid expo now req w (or_intror Hb)), Hquiet by (by left);
      split; [constructor|done]].
  destruct (decide (activeTokens w = [])) as [Hnil|Hne].
  { rewrite (POST_empty expo now req w Ht Hb Hnil), Hquiet by (by right).
    split; [constructor|]. intros _ _. unfold sendSet.
    fold (activeTokens w). by rewrite Hnil. }
  rewrite (POST_run expo now req w Ht Hb Hne). cbn [snd].
  rewrite gatewayCalls_afterBroadcast, chunks_concat.
  apply truthy_spec in Ht as (ti & Hti & _), Hb as (bo & Hbo & _).
  split.
  - unfold messagesOf. rewrite Forall_fmap. apply Forall_forall.
    intros r _. cbn. rewrite Hti, Hbo. done.
  - intros _ _. unfold messagesOf. by rewrite <- list_fmap_compose.
Qed.

(** ** A report, then the read path *)




(** ** The statistics route *)

Lemma byPlatform_spec w :
  let e := engine w in
  NoDup (collation e ∘ fst <$> Stats.byPlatform w)
  ∧ (∀ p n, (p, n) ∈ Stats.byPlatform w →
       (∃ r, r ∈ activeTokens w ∧ PushToken.platform r = p)
       ∧ n = length (filter (λ r, collation e (PushToken.platform r)
                                  = collation e p) (activeTokens w))
       ∧ 0 < n)
  ∧ (∀ r, r ∈ activeTokens w →
       ∃ p n, (p, n) ∈ Stats.byPlatform w
              ∧ collation e p = collation e (PushToken.platform r))
  ∧ sum_list (snd <$> Stats.byPlatform w) = length (activeTokens w).
Proof.
  apply (class_counts_spec (collation (engine w)) PushToken.platform
           (activeTokens w)
           (merge_sort (byRank (platformOrder (engine w))) (activeTokens w))).
  apply merge_sort_Permutation.
Qed.

(** X18.  The statistics are consistent with each other on every database:
    active and inactive tokens add up to the stored rows; the platform
    breakdown has one entry per platform of an active row that the engine
    tells apart, spelled as an active row spells it, with the number of
    active rows of that platform, never zero, and its counts add up to the
    number of active tokens; the notifications of the last 24 hours are at
    most the total. *)
Theorem X18_statistics_are_consistent now w :
  let e := engine w in
  ∃ b, Stats.GET now w = Ok b
       ∧ Stats.success b = true
       ∧ Stats.totalActiveTokens (Stats.stats b)
         + Stats.totalInactiveTokens (Stats.stats b) = length (pushTokens w)
       ∧ Stats.totalActiveTokens (Stats.stats b) = length (activeTokens w)
       ∧ sum_list (Stats.count <$> Stats.platformBreakdown (Stats.stats b))
         = Stats.totalActiveTokens (Stats.stats b)
       ∧ NoDup (collation e ∘ Stats.platform
                <$> Stats.platformBreakdown (Stats.stats b))
       ∧ (∀ pc, pc ∈ Stats.platformBreakdown (Stats.stats b) →
            (∃ r, r ∈ activeTokens w
                  ∧ PushToken.platform r = Stats.platform pc)
            ∧ Stats.count pc
              = length (filter (λ r, collation e (PushToken.platform r)
                                     = collation e (Stats.platform pc))
                               (activeTokens w))
            ∧ 0 < Stats.count pc)
       ∧ (∀ r, r ∈ activeTokens w →
            ∃ pc, pc ∈ Stats.platformBreakdown (Stats.stats b)
                  ∧ collation e (Stats.platform pc)
                    = collation e (PushToken.platform r))
       ∧ Stats.notificationsSent24h (Stats.stats b)
         ≤ Stats.totalNotificationsSent (Stats.stats b).
Proof.
  intros e. eexists. split; [reflexivity|].
  cbn [Stats.success Stats.stats Stats.totalActiveTokens
       Stats.totalInactiveTokens Stats.platformBreakdown
       Stats.notificationsSent24h Stats.totalNotificationsSent].
  split; [done|]. split; [apply length_filter_split|]. split; [done|].
  destruct (byPlatform_spec w) as (Hnd & Hin & Hall & Hsum).
  split.
  { rewrite <- list_fmap_compose.
    assert (Stats.count ∘ (λ p : string * nat, Stats.mkPlatformCount p.1 p.2)
            = snd) as -> by done.
    exact Hsum. }
  split.
  { rewrite <- list_fmap_compose.
    assert ((collation e ∘ Stats.platform)
              ∘ (λ p : string * nat, Stats.mkPlatformCount p.1 p.2)
            = collation e ∘ fst) as -> by done.
    exact Hnd. }
  split.
  { intros pc Hpc. apply list_elem_of_fmap in Hpc as ([p n] & -> & Hg).
    exact (Hin p n Hg). }
  split; [|apply length_filter].
  intros r Hr. destruct (Hall r Hr) as (p & n & Hg & Hk).
  exists (Stats.mkPlatformCount p n). split; [|done].
  apply list_elem_of_fmap. by exists (p, n).
Qed.



(** X20.  What the counters show after an unregister call with a non-empty
    token string: the active rows whose token string the engine takes for
    equal to it move from the active to the inactive count (at most one
    row under the unique index), and the number of stored rows does not
    change. *)
Theorem X20_statistics_after_unregistration now t w :
  t ≠ EmptyString →
  let e := engine w in
  let w1 := (UnregisterToken.POST now
               (Some (UnregisterToken.mkBody (Some t))) w).2 in
  let k := length (filter (λ r, collation e (PushToken.token r) = collation e t)
                          (activeTokens w)) in
  Stats.totalActive w1 + k = Stats.totalActive w
  ∧ Stats.totalInactive w1 = Stats.totalInactive w + k
  ∧ length (pushTokens w1) = length (pushTokens w)
  ∧ (uniqueTokens w → k ≤ 1).
Proof.
  intros Hne e w1 k. subst w1 k. rewrite (unregister_run now t w Hne).
  cbn [snd set_pushTokens pushTokens].
  unfold Stats.totalActive, Stats.totalInactive, activeTokens.
  change (pushTokens (set_pushTokens ?rows _)) with rows. fold e.
  assert (length (filter (λ r, PushToken.isActive r)
                         (prisma_pushToken.deactivate e now t <$> pushTokens w))
          = length (filter (λ r, ¬ collation e (PushToken.token r) = collation e t)
                           (filter (λ r, PushToken.isActive r) (pushTokens w))))
    as Hactive.
  { rewrite list_filter_filter.
    apply (Forall2_length (λ y x, y = prisma_pushToken.deactivate e now t x)).
    apply Forall2_filter.
    - intros y x ->. unfold prisma_pushToken.deactivate, prisma_pushToken.carries.
      destruct (decide (collation e (PushToken.token x) = collation e t));
        cbn; tauto.
    - apply Forall2_fmap_l, Forall_Forall2_diag, Forall_forall. done. }
  pose proof (length_filter_split
                (λ r, collation e (PushToken.token r) = collation e t)
                (filter (λ r, PushToken.isActive r) (pushTokens w))) as Hsplit.
  pose proof (length_filter_split (λ r, Is_true (PushToken.isActive r))
                (pushTokens w)) as Hbefore.
  pose proof (length_filter_split (λ r, Is_true (PushToken.isActive r))
                (prisma_pushToken.deactivate e now t <$> pushTokens w)) as Hafter.
  rewrite length_fmap in Hafter. cbn beta in Hsplit, Hbefore, Hafter.
  split; [lia|]. split; [lia|]. split; [by rewrite length_fmap|].
  intros Hnd.
  assert (length (filter (λ r, collation e (PushToken.token r) = collation e t)
                         (filter (λ r, PushToken.isActive r) (pushTokens w)))
          ≤ tokenCount t w) as Hle.
  { apply (length_filter_filter_le
             (λ r, collation e (PushToken.token r) = collation e t)). }
  destruct (rowOf t w) as [r|] eqn:Hrow.
  - by rewrite (tokenCount_unique t r w Hnd Hrow) in Hle.
  - rewrite (tokenCount_absent t w Hrow) in Hle. lia.
Qed.

Lemma X20_witness :
  let w1 := (UnregisterToken.POST 6%Z
               (Some (UnregisterToken.mkBody (Some "EXPONENTPUSHTOKEN[0]")))
               busyWorld).2 in
  Stats.totalActive w1 + 1 = Stats.totalActive busyWorld
  ∧ Stats.totalInactive w1 = Stats.totalInactive busyWorld + 1.
Proof.
  intros w1.
  destruct (X20_statistics_after_unregistration 6%Z "EXPONENTPUSHTOKEN[0]"
              busyWorld ltac:(discriminate)) as (Hactive & Hinactive & _).
  split; [exact Hactive|exact Hinactive].
Defined.

(** ** The dashboard *)

Lemma sendDisabled_false st :
  Home.sendDisabled st = false →
  Home.loading st = false
  ∧ truthy (Send.title (Home.payload EmptyString st)) = true
  ∧ truthy (Send.body (Home.payload EmptyString st)) = true.
Proof.
  unfold Home.sendDisabled. rewrite !orb_false_iff, !negb_false_iff.
  by intros [[? ?] ?].
Qed.

Lemma sendNotification_run expo now later timestamp st w :
  Home.sendDisabled st = false →
  Home.sendNotification expo now later timestamp st w
  = let sent := Send.POST expo now (Some (Home.payload timestamp st)) w in
    (Home.mkOutcome sent.1
       (if decide (activeTokens w = []) then None
        else Some (Stats.GET later sent.2)),
     sent.2).
Proof.
  intros Hst. apply sendDisabled_false in Hst as (_ & Ht & Hb).
  change (Send.title (Home.payload EmptyString st))
    with (Send.title (Home.payload timestamp st)) in Ht.
  change (Send.body (Home.payload EmptyString st))
    with (Send.body (Home.payload timestamp st)) in Hb.
  unfold Home.sendNotification, bind. cbv zeta.
  destruct (decide (activeTokens w = [])) as [Hnil|Hne].
  - by rewrite (POST_empty expo now _ w Ht Hb Hnil).
  - by rewrite (POST_run expo now _ w Ht Hb Hne).
Qed.

(** X21.  A click on the dashboard's send button while it is enabled (not
    loading, title and body typed in) is never refused by the route's
    validation: the route answers 200, with [success] exactly when some
    token is active; the statistics are fetched again exactly in that case
    and then describe the database the broadcast left behind; and every
    message handed to the gateway carries the typed title and body, the
    dashboard's [sentFrom] and [timestamp] data, the default sound and high
    priority. *)
Theorem X21_enabled_button_is_never_refused expo now later timestamp st w :
  Home.sendDisabled st = false →
  let run := Home.sendNotification expo now later timestamp st w in
  (∃ b, Home.result run.1 = Ok b
        ∧ (Send.success b = true ↔ activeTokens w ≠ []))
  ∧ Home.refreshedStats run.1
    = (if decide (activeTokens w = []) then None
       else Some (Stats.GET later run.2))
  ∧ Forall (λ m, ExpoPushMessage.title m = Home.title st
                 ∧ ExpoPushMessage.body m = Home.body st
                 ∧ ExpoPushMessage.data m
                   = JObj [("sentFrom", JStr "admin-dashboard");
                           ("timestamp", JStr timestamp)]
                 ∧ ExpoPushMessage.sound m = "default"
                 ∧ ExpoPushMessage.priority m = PriorityHigh
                 ∧ ExpoPushMessage.badge m = None)
           (mjoin (gatewayCalls (newCalls w run.2))).
Proof.
  intros Hst run. subst run.
  rewrite (sendNotification_run expo now later timestamp st w Hst). cbv zeta.
  cbn [fst snd Home.result Home.refreshedStats].
  apply sendDisabled_false in Hst as (_ & Ht & Hb).
  change (Send.title (Home.payload EmptyString st))
    with (Send.title (Home.payload timestamp st)) in Ht.
  change (Send.body (Home.payload EmptyString st))
    with (Send.body (Home.payload timestamp st)) in Hb.
  destruct (decide (activeTokens w = [])) as [Hnil|Hne].
  - rewrite (POST_empty expo now _ w Ht Hb Hnil). cbn [fst snd].
    split; [eexists; split; [reflexivity|]; cbn; split; done|].
    split; [done|]. rewrite newCalls_log_calls. constructor.
  - rewrite (POST_run expo now _ w Ht Hb Hne). cbn [fst snd].
    split; [eexists; split; [reflexivity|]; cbn; split; done|].
    split; [done|].
    rewrite gatewayCalls_afterBroadcast, chunks_concat.
    unfold messagesOf. rewrite Forall_fmap. apply Forall_forall.
    intros r _. cbn. done.
Qed.

Lemma X21_witness :
  let run := Home.sendNotification (stubExpo 100 []) 5000%Z 6000%Z
               "2026-01-01T00:00:00.000Z" (Home.mkState "Hi" "there" false)
               mixedAudience in
  (∃ b, Home.result run.1 = Ok b
        ∧ (Send.success b = true ↔ activeTokens mixedAudience ≠ []))
  ∧ Home.refreshedStats run.1 = Some (Stats.GET 6000%Z run.2).
Proof.
  intros run.
  destruct (X21_enabled_button_is_never_refused (stubExpo 100 []) 5000%Z 6000%Z
              "2026-01-01T00:00:00.000Z" (Home.mkState "Hi" "there" false)
              mixedAudience eq_refl) as (Hresult & Hstats & _).
  split; [exact Hresult|exact Hstats].
Defined.

(** X22.  The number of devices the dashboard announces (the statistics'
    [totalActiveTokens]) bounds the [sent] count a click then reports, and
    the two agree exactly when every active token has a well-formed
    address. *)
Theorem X22_announced_devices_bound_sent expo now later0 later timestamp st w :
  Home.sendDisabled st = false →
  ∃ s b,
    Stats.GET later0 w = Ok s
    ∧ Home.result (Home.sendNotification expo now later timestamp st w).1 = Ok b
    ∧ Send.sent b ≤ Stats.totalActiveTokens (Stats.stats s)
    ∧ (Send.sent b = Stats.totalActiveTokens (Stats.stats s)
       ↔ Forall (λ r, isExpoPushToken expo (PushToken.token r))
                (activeTokens w)).
Proof.
  intros Hst.
  rewrite (sendNotification_run expo now later timestamp st w Hst). cbv zeta.
  cbn [fst Home.result].
  apply sendDisabled_false in Hst as (_ & Ht & Hb).
  change (Send.title (Home.payload EmptyString st))
    with (Send.title (Home.payload timestamp st)) in Ht.
  change (Send.body (Home.payload EmptyString st))
    with (Send.body (Home.payload timestamp st)) in Hb.
  eexists _.
  destruct (decide (activeTokens w = [])) as [Hnil|Hne].
  - rewrite (POST_empty expo now _ w Ht Hb Hnil). cbn [fst].
    eexists. split; [reflexivity|]. split; [reflexivity|].
    cbn [Send.sent Stats.stats Stats.totalActiveTokens].
    unfold Stats.totalActive. fold (activeTokens w). rewrite Hnil.
    split; [done|]. split; [constructor|done].
  - rewrite (POST_run expo now _ w Ht Hb Hne). cbn [fst].
    eexists. split; [reflexivity|]. split; [reflexivity|].
    cbn [Send.sent Stats.stats Stats.totalActiveTokens].
    rewrite length_messagesOf. unfold Stats.totalActive, sendSet.
    fold (activeTokens w).
    split; [apply length_filter|]. apply length_filter_all.
Qed.

Lemma X22_witness :
  ∃ s b,
    Stats.GET 4000%Z mixedAudience = Ok s
    ∧ Home.result (Home.sendNotification (stubExpo 100 []) 5000%Z 6000%Z
                     "2026-01-01T00:00:00.000Z"
                     (Home.mkState "Hi" "there" false) mixedAudience).1 = Ok b
    ∧ Send.sent b ≤ Stats.totalActiveTokens (Stats.stats s).
Proof.
  destruct (X22_announced_devices_bound_sent (stubExpo 100 []) 5000%Z 4000%Z
              6000%Z "2026-01-01T00:00:00.000Z"
              (Home.mkState "Hi" "there" false) mixedAudience eq_refl)
    as (s & b & Hs & Hb & Hle & _).
  exists s, b. split; [exact Hs|]. split; [exact Hb|exact Hle].
Defined.

(** ** The error-logs page *)

(** X23.  A fetch of the error-logs page always succeeds, whatever the
    filters typed in and the rows stored, since the page sends no limit: it
    then shows 50 of the stored reports that pass its non-empty filters, as
    the engine compares them, or all of them when at most 50 pass, in
    newest-first order, and no passing report that it leaves out is newer
    than one it shows; the total of its statistics counts the passing
    reports, while the counts by error type add up to all stored reports,
    with or without filters; and the fetch changes no table. *)
Theorem X23_error_page_shows_newest_fifty st w :
  let e := engine w in
  let run := ErrorLogsAdmin.fetchLogs st w in
  let selected :=
    filter (λ r, prisma_errorLog.matches e
                   (ErrorLogs.whereOf (ErrorLogsAdmin.params st)) r)
           (errorLogs w) in
  ∃ s, ErrorLogsAdmin.stats run.1 = Some s
       ∧ length (ErrorLogsAdmin.logs run.1) = 50 `min` ErrorLogs.total s
       ∧ Sorted prisma_errorLog.newestFirst (ErrorLogsAdmin.logs run.1)
       ∧ (∃ rest, ErrorLogsAdmin.logs run.1 ++ rest ≡ₚ selected
                  ∧ ∀ a c, a ∈ ErrorLogsAdmin.logs run.1 → c ∈ rest →
                           (ErrorLog.createdAt c ≤ ErrorLog.createdAt a)%Z)
       ∧ (∀ r, r ∈ selected ↔
            r ∈ errorLogs w
            ∧ (ErrorLogsAdmin.filterType st ≠ EmptyString →
               collation e (ErrorLog.errorType r)
               = collation e (ErrorLogsAdmin.filterType st))
            ∧ (ErrorLogsAdmin.filterPlatform st ≠ EmptyString →
               collation e <$> ErrorLog.platform r
               = Some (collation e (ErrorLogsAdmin.filterPlatform st))))
       ∧ ErrorLogs.total s = length selected
       ∧ sum_list (ErrorLogs.count <$> ErrorLogs.errorTypes s)
         = length (errorLogs w)
       ∧ ErrorLogs.total s ≤ length (errorLogs w)
       ∧ ErrorLogsAdmin.filterType run.1 = ErrorLogsAdmin.filterType st
       ∧ ErrorLogsAdmin.filterPlatform run.1 = ErrorLogsAdmin.filterPlatform st
       ∧ pushTokens run.2 = pushTokens w
       ∧ notificationLogs run.2 = notificationLogs w
       ∧ errorLogs run.2 = errorLogs w.
Proof.
  intros e run selected. subst run. unfold ErrorLogsAdmin.fetchLogs, bind.
  rewrite (GET_run (ErrorLogsAdmin.params st) 50%Z w eq_refl)
    by (unfold prisma_errorLog.int32; lia).
  cbn [fst snd ErrorLogs.get_success ret ErrorLogs.data ErrorLogs.stats
       ErrorLogsAdmin.stats ErrorLogsAdmin.logs ErrorLogsAdmin.filterType
       ErrorLogsAdmin.filterPlatform].
  eexists. split; [reflexivity|].
  cbn [ErrorLogs.total ErrorLogs.errorTypes]. fold e. fold selected.
  destruct (takeRows_newest e 50%Z selected ltac:(lia))
    as (Hlen & Hsorted & Hrest).
  change (Z.to_nat 50) with 50 in Hlen.
  split; [exact Hlen|]. split; [exact Hsorted|]. split; [exact Hrest|].
  split.
  { intros r. subst selected. rewrite list_elem_of_filter, matches_spec.
    unfold passes, ErrorLogsAdmin.params.
    cbn [ErrorLogs.sp_errorType ErrorLogs.sp_platform].
    assert (∀ (v : string) (P : string → Prop),
              (∀ s, (if truthy (Some v) then Some v else None) = Some s →
                    s ≠ "" → P s)
              ↔ (v ≠ "" → P v)) as Hfilter.
    { intros v P. destruct v as [|a v]; cbn.
      - split; [by intros _ []|by intros _ s [=]].
      - split; [intros H _; by apply H|by intros H s [= <-] _; apply H]. }
    rewrite (Hfilter (ErrorLogsAdmin.filterType st)
               (λ s, collation e (ErrorLog.errorType r) = collation e s)).
    rewrite (Hfilter (ErrorLogsAdmin.filterPlatform st)
               (λ s, collation e <$> ErrorLog.platform r
                     = Some (collation e s))).
    tauto. }
  split; [done|].
  split.
  { destruct (groups_spec e (errorLogs w)) as (_ & _ & _ & Hsum).
    rewrite <- list_fmap_compose.
    assert (ErrorLogs.count
              ∘ (λ et : string * nat, ErrorLogs.mkErrorTypeCount et.1 et.2)
            = snd) as -> by done.
    by rewrite (merge_sort_Permutation prisma_errorLog.largestCountFirst). }
  split; [apply length_filter|].
  done.
Qed.
